(** * CopyMedia: matching and relocation of downloaded media

    A shallow embedding of [copy_files.py] (class [CopyMedia]) and of the
    notifier of [copy-files.py] ([send_notification]).

    - Python exceptions are values of [exn]; a computation that may raise
      returns a [result].
    - A series entry of the JSON configuration is a Python [dict] with string
      keys: a [gmap string string] (the values the program reads, [name],
      [regex], [replace], [destination], are JSON strings).
    - The filesystem, the [re] module and the two HTTP collaborators are
      outside the program: the program is written over their interfaces
      ([FileSystem], [Regex], [collaborators]); a concrete filesystem and
      a concrete engine for a fragment of Python's pattern syntax are given
      below to run the program on concrete inputs.
    - Paths are POSIX paths ([posixpath.join], [posixpath.split]). *)

From stdpp Require Import base option list strings gmap fin_maps.
From Stdlib Require Import Ascii String.

Local Open Scope string_scope.
Local Open Scope list_scope.

#[local] Set Warnings "-clear-no-such-hyp".

(** ** Exceptions and results *)

Inductive exn : Type :=
  | KeyError (key : string)
  | TypeError (what : string)
  | ConfigurationError (msg : string)
  | ReError (msg : string)
  | OSError (kind : string) (path : string)
  | ShutilError (msg : string)
  | LookupFailure (msg : string).

Inductive result (A : Type) : Type :=
  | Ok (a : A)
  | Raise (e : exn).
Arguments Ok {A} a.
Arguments Raise {A} e.

#[global] Instance result_ret : MRet result := λ A a, Ok a.
#[global] Instance result_bind : MBind result := λ A B f m,
  match m with Ok a => f a | Raise e => Raise e end.
#[global] Instance result_fmap : FMap result := λ A B f m,
  match m with Ok a => Ok (f a) | Raise e => Raise e end.

Definition is_ok {A} (r : result A) : bool :=
  match r with Ok _ => true | Raise _ => false end.

#[global] Instance exn_eq_dec : EqDecision exn.
Proof. solve_decision. Defined.

(** ** Python values used by the program *)

(** Truthiness of a [str]-or-[None] attribute: [if self.file:]. *)
Definition truthy (v : option string) : bool :=
  match v with
  | None => false
  | Some s => negb (String.eqb s "")
  end.

(** A series entry: [show['name']], ['name' in show]. *)
Abbreviation show := (gmap string string).

Definition contains (key : string) (d : show) : bool :=
  match d !! key with Some _ => true | None => false end.

Definition getitem (d : show) (key : string) : result string :=
  match d !! key with
  | Some v => Ok v
  | None => Raise (KeyError key)
  end.

(** ** POSIX paths *)

Module posixpath.

Definition sep : ascii := "/"%char.

Definition startswith_sep (s : string) : bool :=
  match s with
  | String c _ => Ascii.eqb c sep
  | EmptyString => false
  end.

Fixpoint endswith_sep (s : string) : bool :=
  match s with
  | EmptyString => false
  | String c EmptyString => Ascii.eqb c sep
  | String _ r => endswith_sep r
  end.

(** [join(a, b)] for two [str] arguments. *)
Definition join (a b : string) : string :=
  if startswith_sep b then b
  else if String.eqb a "" || endswith_sep a then a +:+ b
  else a +:+ "/" +:+ b.

(** [p[:i], p[i:]] for [i = p.rfind('/') + 1]. *)
Fixpoint rsplit (p : string) : string * string :=
  match p with
  | EmptyString => ("", "")
  | String c r =>
      let '(h, t) := rsplit r in
      if negb (String.eqb h "") then (String c h, t)
      else if Ascii.eqb c sep then ("/", r)
      else ("", String c r)
  end.

Fixpoint all_sep (s : string) : bool :=
  match s with
  | EmptyString => true
  | String c r => Ascii.eqb c sep && all_sep r
  end.

Fixpoint rstrip_sep (s : string) : string :=
  match s with
  | EmptyString => ""
  | String c r =>
      let r' := rstrip_sep r in
      if Ascii.eqb c sep && String.eqb r' "" then "" else String c r'
  end.

(** [split(p)]: head and tail around the last slash. *)
Definition split (p : string) : string * string :=
  let '(head, tail) := rsplit p in
  if negb (String.eqb head "") && negb (all_sep head)
  then (rstrip_sep head, tail)
  else (head, tail).

(** [join(a, b)] where [a] may be [None]: [os.fspath(None)] raises. *)
Definition join_opt (a : option string) (b : string) : result string :=
  match a with
  | Some a => Ok (join a b)
  | None => Raise (TypeError "expected str, bytes or os.PathLike object, not NoneType")
  end.

End posixpath.

(** ** The regular-expression engine ([re.match], [re.sub]) *)

Class Regex := {
  (** [re.match(pattern, string)] is truthy; [re.error] on a bad pattern. *)
  re_match : string → string → result bool;
  (** [re.sub(pattern, repl, string)]. *)
  re_sub : string → string → string → result string
}.

(** ** Classifier *)

Section classifier.
Context {RE : Regex}.

(** The inner loop of [match_files] (lines 262-270) for one file: the first
    show whose pattern matches, [None] when the loop ends without [break].
    The arguments of the trace-level log call are evaluated first. *)
Fixpoint match_file (f : string) (series : list show) : result (option show) :=
  match series with
  | [] => Ok None
  | show :: rest =>
      _ ← getitem show "name";
      _ ← getitem show "regex";
      regex ← getitem show "regex";
      m ← re_match regex f;
      if (m : bool) then
        _ ← getitem show "name";
        Ok (Some show)
      else match_file f rest
  end.

(** The outer loop of [match_files], with its two accumulators. *)
Fixpoint match_files_loop (files : list string) (series : option (list show))
    (matches : list (string * show)) (nonmatches : list string)
    : result (list (string * show) * list string) :=
  match files with
  | [] => Ok (matches, nonmatches)
  | f :: files' =>
      match series with
      | None => Raise (TypeError "'NoneType' object is not iterable")
      | Some series' =>
          r ← match_file f series';
          match r with
          | Some show => match_files_loop files' series (matches ++ [(f, show)]) nonmatches
          | None => match_files_loop files' series matches (nonmatches ++ [f])
          end
      end
  end.

Definition match_files (files : list string) (series : option (list show))
    : result (list (string * show) * list string) :=
  match_files_loop files series [] [].

End classifier.

(** ** The world outside the program *)

(** What the program asks of the filesystem. A mutating operation returns its
    outcome together with the state it leaves, also when it raises. The one
    law is the postcondition of [os.makedirs]. *)
Class FileSystem (FS : Type) := {
  fs_exists : string → FS → bool;
  fs_isfile : string → FS → bool;
  fs_listdir : string → FS → result (list string);
  fs_makedirs : string → FS → result () * FS;
  fs_move : string → string → FS → result () * FS;
  fs_makedirs_exists : ∀ p s s',
    fs_makedirs p s = (Ok (), s') → fs_exists p s' = true
}.

(** The calls that change the world, in the order the program issues them. *)
Inductive call : Type :=
  | Makedirs (path : string)
  | Move (src dst : string)
  | Post (url value1 : string).

#[global] Instance call_eq_dec : EqDecision call.
Proof. solve_decision. Defined.

Definition is_move (c : call) : bool :=
  match c with Move _ _ => true | _ => false end.

Record world (FS : Type) := World { fs : FS; calls : list call }.
Arguments World {FS} fs calls.
Arguments fs {FS} w.
Arguments calls {FS} w.

(** The HTTP collaborators: [tmdb.is_movie(file, api_key)] and
    [requests.post(url, data={'value1': s})]. *)
Record collaborators := {
  is_movie : string → option string → result bool;
  requests_post : string → string → result ()
}.

(** Programs: state passing over the world, with exceptions. The world at
    the point of a raise is kept. *)
Definition prog (FS A : Type) : Type := world FS → result A * world FS.

#[global] Instance prog_ret {FS} : MRet (prog FS) := λ A a w, (Ok a, w).
#[global] Instance prog_bind {FS} : MBind (prog FS) := λ A B f m w,
  match m w with
  | (Ok a, w') => f a w'
  | (Raise e, w') => (Raise e, w')
  end.

Definition lift {FS A} (r : result A) : prog FS A := λ w, (r, w).

Section effects.
Context {FS : Type} {FSI : FileSystem FS}.

Definition path_exists (p : string) : prog FS bool :=
  λ w, (Ok (fs_exists p (fs w)), w).

Definition isfile (p : string) : prog FS bool :=
  λ w, (Ok (fs_isfile p (fs w)), w).

(** [os.listdir(None)] lists the current directory. *)
Definition listdir (p : option string) : prog FS (list string) :=
  λ w, (fs_listdir (default "." p) (fs w), w).

Definition makedirs (p : string) : prog FS () :=
  λ w, let '(r, s) := fs_makedirs p (fs w) in
       (r, World s (calls w ++ [Makedirs p])).

Definition shutil_move (src dst : string) : prog FS () :=
  λ w, let '(r, s) := fs_move src dst (fs w) in
       (r, World s (calls w ++ [Move src dst])).

Definition post (env : collaborators) (url value1 : string) : prog FS () :=
  λ w, (requests_post env url value1, World (fs w) (calls w ++ [Post url value1])).

End effects.

(** ** Notifier *)

(** [' and '.join(names)]. *)
Fixpoint str_join (sep : string) (names : list string) : string :=
  match names with
  | [] => ""
  | [n] => n
  | n :: rest => n +:+ sep +:+ str_join sep rest
  end.

(** [[config['name'] for file, config in matches]]. *)
Fixpoint names_of (matches : list (string * show)) : result (list string) :=
  match matches with
  | [] => Ok []
  | (_, config) :: rest =>
      n ← getitem config "name";
      ns ← names_of rest;
      Ok (n :: ns)
  end.

Section notifier.
Context {FS : Type} {FSI : FileSystem FS} (env : collaborators).

(** [send_notification] of [copy-files.py], lines 130-146, with the
    trigger URL (there the constant [IFTTT_URL]) as an argument. *)
Definition send_notification (matches : list (string * show)) (url : string)
    : prog FS () :=
  match matches with
  | [] => mret ()
  | _ =>
      names ← lift (names_of matches);
      let name_string := str_join " and " names in
      post env url name_string
  end.

End notifier.

(** ** The orchestration object *)

Module Config.
(** The parsed JSON configuration, by the keys the program reads. *)
Record t := {
  scanDir : option string;
  seriesDir : option string;
  movieDir : option string;
  series : option (list show)
}.
End Config.

Module CopyMedia.

Record t := {
  file : option string;
  configs : option Config.t;
  ifttt_url : option string;
  scandir : option string;
  seriesdir : option string;
  moviedir : option string;
  tmdb : option string;
  series : option (list show)
}.

(** Lines 179-199. *)
Fixpoint validate_series (series : list show) : result bool :=
  match series with
  | [] => Ok true
  | show :: rest =>
      if negb (contains "name" show) then Raise (KeyError "name")
      else
        _ ← getitem show "name";
        if negb (contains "regex" show) then
          _ ← getitem show "name";
          Raise (KeyError "regex")
        else
          _ ← getitem show "regex";
          _ ← getitem show "name";
          validate_series rest
  end.

(** Lines 113-177. The method updates [self] and returns [config]; here
    the updated object is returned, with [config] in its [configs]. *)
Definition process_configs (self : t) (config : Config.t) : result t :=
  let scandir1 :=
    if truthy (file self) then scandir self
    else match scandir self, Config.scanDir config with
         | None, Some d => Some d
         | sd, _ => sd
         end in
  if negb (truthy (file self)) && negb (truthy scandir1) then
    Raise (ConfigurationError "Missing directory to scan.")
  else
    let seriesdir1 :=
      match seriesdir self, Config.seriesDir config with
      | None, Some d => Some d
      | sd, _ => sd
      end in
    let moviedir1 :=
      match moviedir self, Config.movieDir config with
      | None, Some d => Some d
      | md, _ => md
      end in
    if negb (truthy seriesdir1) then
      Raise (ConfigurationError "Missing destination series directory")
    else if negb (truthy moviedir1) then
      Raise (ConfigurationError "Missing destination movie directory")
    else
      let self1 := {| file := file self; configs := Some config;
                      ifttt_url := ifttt_url self; scandir := scandir1;
                      seriesdir := seriesdir1; moviedir := moviedir1;
                      tmdb := tmdb self; series := series self |} in
      match Config.series config with
      | Some s =>
          _ ← validate_series s;
          Ok {| file := file self1; configs := configs self1;
                ifttt_url := ifttt_url self1; scandir := scandir self1;
                seriesdir := seriesdir self1; moviedir := moviedir self1;
                tmdb := tmdb self1; series := Some s |}
      | None => Ok self1
      end.

(** [__init__], lines 51-72: the logging set-up is left out and the
    configuration file is given parsed. *)
Definition init (ifttt_url scandir seriesdir file tmdb moviedir : option string)
    (config : Config.t) : result t :=
  process_configs
    {| file := file; configs := None; ifttt_url := ifttt_url;
       scandir := scandir; seriesdir := seriesdir; moviedir := moviedir;
       tmdb := tmdb; series := None |}
    config.

Section relocator.
Context {RE : Regex} {FS : Type} {FSI : FileSystem FS} (env : collaborators).

(** Lines 205-212. *)
Fixpoint move_movies (movie_files : list string) (move_dir start_dir : option string)
    : prog FS () :=
  match movie_files with
  | [] => mret ()
  | file_name :: rest =>
      src ← lift (posixpath.join_opt start_dir file_name);
      dst ← lift (posixpath.join_opt move_dir file_name);
      shutil_move src dst;;
      move_movies rest move_dir start_dir
  end.

(** Lines 224-230: the name of the file at its destination. *)
Definition dest_file_name (file_name : string) (config_entry : show)
    : result string :=
  if contains "replace" config_entry then
    regex ← getitem config_entry "regex";
    replace ← getitem config_entry "replace";
    re_sub regex replace file_name
  else Ok file_name.

(** Lines 233-236: the destination directory. *)
Definition dest_dir (move_dir : option string) (config_entry : show)
    : result string :=
  if contains "destination" config_entry then
    d ← getitem config_entry "destination";
    posixpath.join_opt move_dir d
  else
    n ← getitem config_entry "name";
    posixpath.join_opt move_dir n.

(** Lines 239-241: create the destination directory if it is not there. *)
Definition ensure_dir (dest : string) : prog FS () :=
  e ← path_exists dest;
  if negb e then makedirs dest else mret ().

(** The body of the loop of [move_series], lines 220-250. *)
Definition move_series_step (move_dir start_dir : option string)
    (m : string * show) : prog FS string :=
  let '(file_name, config_entry) := m in
  dest_file_name ← lift (dest_file_name file_name config_entry);
  dest ← lift (dest_dir move_dir config_entry);
  ensure_dir dest;;
  src ← lift (posixpath.join_opt start_dir file_name);
  shutil_move src (posixpath.join dest dest_file_name);;
  mret dest.

Fixpoint move_series_loop (matches : list (string * show))
    (move_dir start_dir : option string) (destinations : gset string)
    : prog FS (gset string) :=
  match matches with
  | [] => mret destinations
  | m :: rest =>
      dest ← move_series_step move_dir start_dir m;
      move_series_loop rest move_dir start_dir ({[dest]} ∪ destinations)
  end.

(** Lines 214-252. *)
Definition move_series (matches : list (string * show))
    (move_dir start_dir : option string) : prog FS (gset string) :=
  move_series_loop matches move_dir start_dir ∅.

(** Modelled from the spec: the [ifttt] module is not among the sources.
    Its [send_notification(matches, url)] is the notifier of §4.5: the
    matched names joined with " and " and posted to the webhook, nothing
    when there is no match; this is [send_notification] of
    [copy-files.py] with the URL as an argument. *)
Definition ifttt_send_notification (matches : list (string * show))
    (url : string) : prog FS () :=
  send_notification env matches url.

(** [[f for f in listdir(scandir) if isfile(join(scandir, f))]]. *)
Fixpoint scan_files (scandir : option string) (names : list string)
    : prog FS (list string) :=
  match names with
  | [] => mret []
  | f :: rest =>
      p ← lift (posixpath.join_opt scandir f);
      b ← isfile p;
      fs' ← scan_files scandir rest;
      mret (if (b : bool) then f :: fs' else fs')
  end.

(** Lines 79-84: the files of the run. *)
Definition input_files (self : t) : prog FS (list string) :=
  if truthy (file self) then
    let '(scan_dir, file_name) := posixpath.split (default "" (file self)) in
    mret [file_name]
  else
    names ← listdir (scandir self);
    scan_files (scandir self) names.

(** [[file for file in files if tmdb.is_movie(file, self.tmdb)]]. *)
Fixpoint movie_files_of (files : list string) (api_key : option string)
    : result (list string) :=
  match files with
  | [] => Ok []
  | file :: rest =>
      b ← is_movie env file api_key;
      ms ← movie_files_of rest api_key;
      Ok (if (b : bool) then file :: ms else ms)
  end.

(** Lines 74-101. *)
Definition execute (self : t) : prog FS () :=
  files ← input_files self;
  '(matches, nonmatches) ← lift (match_files files (series self));
  match matches with
  | _ :: _ =>
      move_series matches (seriesdir self) (scandir self);;
      match ifttt_url self with
      | Some url => ifttt_send_notification matches url
      | None => mret ()
      end
  | [] =>
      match nonmatches, moviedir self with
      | _ :: _, Some _ =>
          movie_files ← lift (movie_files_of files (tmdb self));
          move_movies movie_files (moviedir self) (scandir self)
      | _, _ => mret ()
      end
  end.

(** [main], lines 305-308: build the object, then run it. *)
Definition run (ifttt_url scandir seriesdir file tmdb moviedir : option string)
    (config : Config.t) : prog FS () :=
  c ← lift (init ifttt_url scandir seriesdir file tmdb moviedir config);
  execute c.

End relocator.

End CopyMedia.

(** ** The command line *)

Module Args.
(** The parsed command line, by the options [main] reads. *)
Record t := {
  file : option string;
  dest : option string;
  moviedest : option string;
  scan : option string;
  ifttt : option string;
  tmdb : option string;
  delugeArgs : list string
}.
End Args.

(** [main], lines 283-295: the torrent name and path of a download-client
    call with three arguments or more. *)
Definition torrent (args : Args.t) : option string * option string :=
  match Args.delugeArgs args with
  | _ :: name :: path :: _ => (Some name, Some path)
  | _ => (None, None)
  end.

(** The trigger URL; [base] is the constant [ifttt.IFTTT_URL_BASE]. *)
Definition trigger_url (base : string) (args : Args.t) : option string :=
  let from_deluge :=
    match Args.delugeArgs args with
    | [_; _; _; key] => Some (base +:+ "/" +:+ key)
    | _ => None
    end in
  match from_deluge, Args.ifttt args with
  | None, Some key => if truthy (Some key) then Some (base +:+ "/" +:+ key) else None
  | url, _ => url
  end.

(** Lines 297-302: the file of the run, [--file] first. *)
Definition explicit_file (args : Args.t) : option string :=
  let '(torrent_name, torrent_path) := torrent args in
  let file :=
    if truthy torrent_name && truthy torrent_path
    then Some (posixpath.join (default "" torrent_path) (default "" torrent_name))
    else None in
  if truthy (Args.file args) then Args.file args else file.

Section main.
Context {RE : Regex} {FS : Type} {FSI : FileSystem FS} (env : collaborators).

(** [main], lines 277-308, with the configuration file given parsed. *)
Definition main (base : string) (args : Args.t) (config : Config.t) : prog FS () :=
  CopyMedia.run env (trigger_url base args) (Args.scan args) (Args.dest args)
    (explicit_file args) (Args.tmdb args) (Args.moviedest args) config.

End main.

(** ** A regular-expression engine for a fragment of Python's syntax

    Patterns: literals, [.], [^], [$], escapes of punctuation, the classes
    [\d \w \s] and their complements, sets [[...]], groups [(...)] and
    [(?:...)], alternation, and the quantifiers [* + ? {m,n}], greedy or
    lazy. Matching is by backtracking, leftmost alternative first, as in
    [re]. A pattern outside the fragment is reported like a pattern [re]
    rejects. *)

Module PyRe.

Inductive setitem : Type :=
  | SChar (c : ascii)
  | SRange (lo hi : ascii)
  | SDigit (neg : bool)
  | SWord (neg : bool)
  | SSpace (neg : bool).

Inductive regex : Type :=
  | Empty
  | Char (c : ascii)
  | Any
  | Set_ (neg : bool) (items : list setitem)
  | Bol
  | Eol
  | Seq (r1 r2 : regex)
  | Alt (r1 r2 : regex)
  | Repeat (lo : nat) (hi : option nat) (greedy : bool) (r : regex)
  | Group (n : nat) (r : regex).

Definition code (c : ascii) : nat := nat_of_ascii c.

Definition between (lo hi c : ascii) : bool :=
  Nat.leb (code lo) (code c) && Nat.leb (code c) (code hi).

Definition is_digit (c : ascii) : bool := between "0" "9" c.

Definition is_word (c : ascii) : bool :=
  between "a" "z" c || between "A" "Z" c || is_digit c || Ascii.eqb c "_".

Definition is_space (c : ascii) : bool :=
  Ascii.eqb c " " || between (ascii_of_nat 9) (ascii_of_nat 13) c.

Definition in_item (c : ascii) (i : setitem) : bool :=
  match i with
  | SChar d => Ascii.eqb c d
  | SRange lo hi => between lo hi c
  | SDigit neg => xorb neg (is_digit c)
  | SWord neg => xorb neg (is_word c)
  | SSpace neg => xorb neg (is_space c)
  end.

Definition newline : ascii := ascii_of_nat 10.

(** Captured groups, most recent first. *)
Definition captures : Type := list (nat * list ascii).

Fixpoint capture (n : nat) (caps : captures) : option (list ascii) :=
  match caps with
  | [] => None
  | (k, v) :: rest => if Nat.eqb k n then Some v else capture n rest
  end.

Section matcher.
Context {R : Type}.
(** Length of the whole subject, to tell the start of the string. *)
Variable total : nat.

(** [m r s caps k]: match [r] at the front of [s], then continue with
    [k] on what is left; [None] makes the matcher backtrack. *)
Fixpoint m (r : regex) (s : list ascii) (caps : captures)
    (k : list ascii → captures → option R) {struct r} : option R :=
  match r with
  | Empty => k s caps
  | Char c =>
      match s with
      | d :: s' => if Ascii.eqb c d then k s' caps else None
      | [] => None
      end
  | Any =>
      match s with
      | d :: s' => if Ascii.eqb d newline then None else k s' caps
      | [] => None
      end
  | Set_ neg items =>
      match s with
      | d :: s' => if xorb neg (existsb (in_item d) items) then k s' caps else None
      | [] => None
      end
  | Bol => if Nat.eqb (List.length s) total then k s caps else None
  | Eol =>
      match s with
      | [] => k s caps
      | [d] => if Ascii.eqb d newline then k s caps else None
      | _ => None
      end
  | Seq r1 r2 => m r1 s caps (λ s' caps', m r2 s' caps' k)
  | Alt r1 r2 =>
      match m r1 s caps k with
      | Some x => Some x
      | None => m r2 s caps k
      end
  | Repeat lo hi greedy r' =>
      (fix loop (fuel count : nat) (s : list ascii) (caps : captures)
           {struct fuel} : option R :=
         match fuel with
         | 0 => None
         | S fuel' =>
             let more :=
               if match hi with Some h => Nat.ltb count h | None => true end then
                 m r' s caps (λ s' caps',
                   if Nat.ltb (List.length s') (List.length s) || Nat.ltb count lo
                   then loop fuel' (S count) s' caps'
                   else None)
               else None in
             let stop := if Nat.leb lo count then k s caps else None in
             if greedy then
               match more with Some x => Some x | None => stop end
             else
               match stop with Some x => Some x | None => more end
         end) (S (List.length s + lo)) 0 s caps
  | Group n r' =>
      m r' s caps (λ s' caps',
        k s' ((n, take (List.length s - List.length s') s) :: caps'))
  end.
End matcher.

(** *** Patterns *)

Local Open Scope char_scope.

Definition digit_val (c : ascii) : nat := code c - code "0".

Fixpoint digits (s : list ascii) (acc : option nat) : option nat * list ascii :=
  match s with
  | d :: s' =>
      if is_digit d then digits s' (Some (10 * default 0 acc + digit_val d))
      else (acc, s)
  | [] => (acc, s)
  end.

Definition is_alnum (c : ascii) : bool :=
  between "a" "z" c || between "A" "Z" c || is_digit c.

(** The character an escaped letter stands for, in patterns and in
    replacement templates. *)
Definition control (c : ascii) : option ascii :=
  match c with
  | "n" => Some newline
  | "t" => Some (ascii_of_nat 9)
  | "r" => Some (ascii_of_nat 13)
  | "f" => Some (ascii_of_nat 12)
  | "v" => Some (ascii_of_nat 11)
  | "a" => Some (ascii_of_nat 7)
  | _ => None
  end.

Definition class_of (c : ascii) : option setitem :=
  match c with
  | "d" => Some (SDigit false)
  | "D" => Some (SDigit true)
  | "w" => Some (SWord false)
  | "W" => Some (SWord true)
  | "s" => Some (SSpace false)
  | "S" => Some (SSpace true)
  | _ => None
  end.

(** One member of a set: a class or a character. *)
Definition set_atom (s : list ascii) : option (setitem * list ascii) :=
  match s with
  | "\" :: c :: s' =>
      match class_of c, control c with
      | Some i, _ => Some (i, s')
      | None, Some d => Some (SChar d, s')
      | None, None => if is_alnum c then None else Some (SChar c, s')
      end
  | "\" :: [] => None
  | c :: s' => Some (SChar c, s')
  | [] => None
  end.

Fixpoint parse_set (fuel : nat) (s : list ascii) (first : bool)
    (acc : list setitem) : option (list setitem * list ascii) :=
  match fuel with
  | 0 => None
  | S fuel' =>
      match s with
      | [] => None
      | c :: s0 =>
          if Ascii.eqb c "]" && negb first then Some (rev acc, s0)
          else
            '(i, s1) ← set_atom s;
            match s1 with
            | "-" :: x :: s2 =>
                if Ascii.eqb x "]" then parse_set fuel' s1 false (i :: acc)
                else
                  '(j, s3) ← set_atom (x :: s2);
                  match i, j with
                  | SChar lo, SChar hi =>
                      if Nat.leb (code lo) (code hi)
                      then parse_set fuel' s3 false (SRange lo hi :: acc)
                      else None
                  | _, _ => None
                  end
            | _ => parse_set fuel' s1 false (i :: acc)
            end
      end
  end.

(** [{m}], [{m,}], [{,n}], [{m,n}] after the opening brace. The outer
    [None] is an error, the inner one a brace that is a literal. *)
Definition parse_brace (s : list ascii)
    : option (option (nat * option nat * list ascii)) :=
  match s with
  | "}" :: _ => Some None
  | _ =>
      let '(lo, s1) := digits s None in
      match s1 with
      | "," :: s2 =>
          let '(hi, s3) := digits s2 None in
          match s3 with
          | "}" :: s4 =>
              match hi with
              | Some h =>
                  if Nat.ltb h (default 0 lo) then None
                  else Some (Some (default 0 lo, Some h, s4))
              | None => Some (Some (default 0 lo, None, s4))
              end
          | _ => Some None
          end
      | "}" :: s2 =>
          match lo with
          | Some l => Some (Some (l, Some l, s2))
          | None => Some None
          end
      | _ => Some None
      end
  end.

(** A quantifier at the front of [s], if there is one. *)
Definition parse_quant (s : list ascii)
    : option (option (nat * option nat * list ascii)) :=
  match s with
  | "*" :: s' => Some (Some (0, None, s'))
  | "+" :: s' => Some (Some (1, None, s'))
  | "?" :: s' => Some (Some (0, Some 1, s'))
  | "{" :: s' => parse_brace s'
  | _ => Some None
  end.

Definition quantified (a : regex) (s : list ascii) : option (regex * list ascii) :=
  q ← parse_quant s;
  match q with
  | None => Some (a, s)
  | Some (lo, hi, s1) =>
      match a with
      | Bol | Eol => None
      | _ =>
          '(greedy, s2) ← match s1 with
                          | "?" :: s2 => Some (false, s2)
                          | "+" :: _ => None
                          | _ => Some (true, s1)
                          end;
          q2 ← parse_quant s2;
          match q2 with
          | Some _ => None
          | None => Some (Repeat lo hi greedy a, s2)
          end
      end
  end.

Definition escape_atom (c : ascii) : option regex :=
  match class_of c, control c with
  | Some i, _ => Some (Set_ false [i])
  | None, Some d => Some (Char d)
  | None, None =>
      if Ascii.eqb c "A" then Some Bol
      else if is_alnum c then None
      else Some (Char c)
  end.

(** Recursive descent; [g] is the number of groups opened so far. *)
Fixpoint parse_alt (fuel : nat) (s : list ascii) (g : nat)
    : option (regex * list ascii * nat) :=
  match fuel with
  | 0 => None
  | S fuel' =>
      '(r1, s1, g1) ← parse_seq fuel' s g;
      match s1 with
      | "|" :: s2 =>
          '(r2, s3, g2) ← parse_alt fuel' s2 g1;
          Some (Alt r1 r2, s3, g2)
      | _ => Some (r1, s1, g1)
      end
  end
with parse_seq (fuel : nat) (s : list ascii) (g : nat)
    : option (regex * list ascii * nat) :=
  match fuel with
  | 0 => None
  | S fuel' =>
      match s with
      | [] => Some (Empty, s, g)
      | "|" :: _ => Some (Empty, s, g)
      | ")" :: _ => Some (Empty, s, g)
      | _ =>
          '(a, s1, g1) ← parse_atom fuel' s g;
          '(q, s2) ← quantified a s1;
          '(rest, s3, g3) ← parse_seq fuel' s2 g1;
          Some (Seq q rest, s3, g3)
      end
  end
with parse_atom (fuel : nat) (s : list ascii) (g : nat)
    : option (regex * list ascii * nat) :=
  match fuel with
  | 0 => None
  | S fuel' =>
      match s with
      | "(" :: "?" :: ":" :: s1 =>
          '(r, s2, g1) ← parse_alt fuel' s1 g;
          match s2 with
          | ")" :: s3 => Some (r, s3, g1)
          | _ => None
          end
      | "(" :: "?" :: _ => None
      | "(" :: s1 =>
          '(r, s2, g1) ← parse_alt fuel' s1 (S g);
          match s2 with
          | ")" :: s3 => Some (Group (S g) r, s3, g1)
          | _ => None
          end
      | "[" :: "^" :: s1 =>
          '(items, s2) ← parse_set (S (List.length s1)) s1 true [];
          Some (Set_ true items, s2, g)
      | "[" :: s1 =>
          '(items, s2) ← parse_set (S (List.length s1)) s1 true [];
          Some (Set_ false items, s2, g)
      | "." :: s1 => Some (Any, s1, g)
      | "^" :: s1 => Some (Bol, s1, g)
      | "$" :: s1 => Some (Eol, s1, g)
      | "\" :: c :: s1 => r ← escape_atom c; Some (r, s1, g)
      | "\" :: [] => None
      | "*" :: _ => None
      | "+" :: _ => None
      | "?" :: _ => None
      | "{" :: s1 =>
          q ← parse_brace s1;
          match q with
          | Some _ => None
          | None => Some (Char "{", s1, g)
          end
      | c :: s1 => Some (Char c, s1, g)
      | [] => None
      end
  end.

(** [re.compile]: the expression and its number of groups. *)
Definition compile (pattern : string) : option (regex * nat) :=
  let s := list_ascii_of_string pattern in
  '(r, rest, g) ← parse_alt (4 * List.length s + 4) s 0;
  match rest with
  | [] => Some (r, g)
  | _ => None
  end.

(** *** Matching at a position *)

(** Match [r] at the front of the suffix [s] of a subject of length
    [total]; with [must_advance] an empty match is refused (and the
    matcher backtracks for another). What is left and the groups. *)
Definition match_here (r : regex) (total : nat) (s : list ascii)
    (must_advance : bool) : option (list ascii * captures) :=
  m total r s [] (λ s' caps,
    if must_advance && Nat.eqb (List.length s') (List.length s) then None
    else Some (s', caps)).

(** The leftmost match at or after the front of [s]: the characters
    skipped, the suffix where the match starts, what is left after it,
    and the groups. *)
Fixpoint search (r : regex) (total : nat) (s : list ascii) (must_advance : bool)
    : option (list ascii * list ascii * list ascii * captures) :=
  match match_here r total s must_advance with
  | Some (s', caps) => Some ([], s, s', caps)
  | None =>
      match s with
      | [] => None
      | c :: s1 =>
          '(skipped, start, s', caps) ← search r total s1 false;
          Some (c :: skipped, start, s', caps)
      end
  end.

(** *** Replacement templates *)

Inductive piece : Type :=
  | Lit (c : ascii)
  | Ref (n : nat).

Definition is_octal (c : ascii) : bool := between "0" "7" c.

(** [re]'s template syntax: [\g<n>] and [\n] refer to group [n], [\\] and
    the control escapes stand for one character, a backslash before
    another letter is an error and before anything else is kept. Every
    other character, [$] included, is literal. *)
Fixpoint parse_template (fuel : nat) (s : list ascii) (groups : nat)
    : option (list piece) :=
  match fuel with
  | 0 => None
  | S fuel' =>
      match s with
      | [] => Some []
      | "\" :: [] => None
      | "\" :: "g" :: "<" :: s1 =>
          match digits s1 None with
          | (Some n, ">" :: s2) =>
              if Nat.leb n groups
              then ps ← parse_template fuel' s2 groups; Some (Ref n :: ps)
              else None
          | _ => None
          end
      | "\" :: "g" :: _ => None
      | "\" :: "0" :: s1 =>
          let '(v, s2) :=
            match s1 with
            | a :: b :: s2 =>
                if is_octal a && is_octal b then (8 * digit_val a + digit_val b, s2)
                else if is_octal a then (digit_val a, b :: s2)
                else (0, s1)
            | [a] => if is_octal a then (digit_val a, []) else (0, s1)
            | [] => (0, s1)
            end in
          ps ← parse_template fuel' s2 groups; Some (Lit (ascii_of_nat v) :: ps)
      | "\" :: c :: s1 =>
          if is_digit c then
            match s1 with
            | d :: s2 =>
                if is_digit d then
                  match s2 with
                  | e :: s3 =>
                      if is_octal c && is_octal d && is_octal e then
                        let v := 64 * digit_val c + 8 * digit_val d + digit_val e in
                        if Nat.ltb 255 v then None
                        else ps ← parse_template fuel' s3 groups;
                             Some (Lit (ascii_of_nat v) :: ps)
                      else
                        let n := 10 * digit_val c + digit_val d in
                        if Nat.leb n groups
                        then ps ← parse_template fuel' s2 groups; Some (Ref n :: ps)
                        else None
                  | [] =>
                      let n := 10 * digit_val c + digit_val d in
                      if Nat.leb n groups
                      then ps ← parse_template fuel' s2 groups; Some (Ref n :: ps)
                      else None
                  end
                else
                  if Nat.leb (digit_val c) groups
                  then ps ← parse_template fuel' s1 groups; Some (Ref (digit_val c) :: ps)
                  else None
            | [] =>
                if Nat.leb (digit_val c) groups then Some [Ref (digit_val c)] else None
            end
          else
            match control c with
            | Some d => ps ← parse_template fuel' s1 groups; Some (Lit d :: ps)
            | None =>
                if Ascii.eqb c "\" then
                  ps ← parse_template fuel' s1 groups; Some (Lit "\" :: ps)
                else if is_alnum c then None
                else ps ← parse_template fuel' s1 groups;
                     Some (Lit "\" :: Lit c :: ps)
            end
      | c :: s1 => ps ← parse_template fuel' s1 groups; Some (Lit c :: ps)
      end
  end.

(** Expansion for one match: group 0 is the whole match, a group that
    did not take part gives the empty string. *)
Fixpoint expand (ps : list piece) (whole : list ascii) (caps : captures)
    : list ascii :=
  match ps with
  | [] => []
  | Lit c :: ps' => c :: expand ps' whole caps
  | Ref 0 :: ps' => whole ++ expand ps' whole caps
  | Ref n :: ps' => default [] (capture n caps) ++ expand ps' whole caps
  end.

(** *** Substitution *)

(** The loop of [sub]: replace the leftmost match, go on after it; after
    an empty match the next one must advance. *)
Fixpoint sub_loop (fuel : nat) (r : regex) (ps : list piece) (total : nat)
    (s : list ascii) (must_advance : bool) : list ascii :=
  match fuel with
  | 0 => s
  | S fuel' =>
      match search r total s must_advance with
      | None => s
      | Some (skipped, start, s', caps) =>
          let whole := take (List.length start - List.length s') start in
          skipped ++ expand ps whole caps
            ++ sub_loop fuel' r ps total s'
                 (Nat.eqb (List.length s') (List.length start))
      end
  end.

Local Close Scope char_scope.

Definition pattern_error : exn := ReError "invalid or unsupported pattern".
Definition template_error : exn := ReError "invalid or unsupported replacement".

Definition py_match (pattern subject : string) : result bool :=
  match compile pattern with
  | None => Raise pattern_error
  | Some (r, _) =>
      let s := list_ascii_of_string subject in
      Ok (bool_decide (is_Some (match_here r (List.length s) s false)))
  end.

Definition py_sub (pattern repl subject : string) : result string :=
  match compile pattern with
  | None => Raise pattern_error
  | Some (r, groups) =>
      let t := list_ascii_of_string repl in
      match parse_template (S (List.length t)) t groups with
      | None => Raise template_error
      | Some ps =>
          let s := list_ascii_of_string subject in
          Ok (string_of_list_ascii
                (sub_loop (2 * List.length s + 2) r ps (List.length s) s false))
      end
  end.

#[global] Instance engine : Regex := {| re_match := py_match; re_sub := py_sub |}.

End PyRe.

(** ** A concrete filesystem

    A tree of files and directories as a finite map from normalised paths
    to nodes, with [os.path.exists], [os.path.isfile], [os.listdir],
    [os.makedirs] and [shutil.move] on it (one device, no links, no
    permissions). The root and the current directory always exist. *)

Module SimpleFS.

Inductive node : Type :=
  | File (content : string)
  | Dir.

#[global] Instance node_eq_dec : EqDecision node.
Proof. solve_decision. Defined.

Abbreviation t := (gmap string node).

(** The components of a path between slashes. *)
Fixpoint components (p : string) (cur : string) : list string :=
  match p with
  | EmptyString => [cur]
  | String c r =>
      if Ascii.eqb c posixpath.sep then cur :: components r ""
      else components r (cur +:+ String c "")
  end.

(** Drop empty and [.] components, resolve [..] against what precedes. *)
Fixpoint resolve (absolute : bool) (comps : list string) (stack : list string)
    : list string :=
  match comps with
  | [] => rev stack
  | c :: rest =>
      if String.eqb c "" || String.eqb c "." then resolve absolute rest stack
      else if String.eqb c ".." then
        match stack with
        | top :: stack' =>
            if String.eqb top ".." then resolve absolute rest (c :: stack)
            else resolve absolute rest stack'
        | [] =>
            if absolute then resolve absolute rest stack
            else resolve absolute rest [c]
        end
      else resolve absolute rest (c :: stack)
  end.

Fixpoint paths_of (pre : string) (comps : list string) : list string :=
  match comps with
  | [] => []
  | c :: rest => (pre +:+ c) :: paths_of (pre +:+ c +:+ "/") rest
  end.

(** The normalised path of every directory on the way to [p], then [p]. *)
Definition paths (p : string) : list string :=
  let absolute := posixpath.startswith_sep p in
  paths_of (if absolute then "/" else "") (resolve absolute (components p "") []).

(** The node at [p], if any. *)
Definition node_at (p : string) (s : t) : option node :=
  match last (paths p) with
  | None => Some Dir
  | Some q => s !! q
  end.

Definition norm (p : string) : string :=
  match last (paths p) with
  | None => if posixpath.startswith_sep p then "/" else "."
  | Some q => q
  end.

Definition exists_ (p : string) (s : t) : bool :=
  negb (String.eqb p "") && bool_decide (is_Some (node_at p s)).

Definition isfile (p : string) (s : t) : bool :=
  match node_at p s with
  | Some (File _) => negb (String.eqb p "")
  | _ => false
  end.

Definition isdir (p : string) (s : t) : bool :=
  match node_at p s with
  | Some Dir => negb (String.eqb p "")
  | _ => false
  end.

Definition parent_of (key : string) : string :=
  let '(head, _) := posixpath.split key in
  if String.eqb head "" then "." else head.

Definition listdir (p : string) (s : t) : result (list string) :=
  match node_at p s with
  | Some Dir =>
      Ok (omap (λ '(k, _),
                  if String.eqb (parent_of k) (norm p)
                  then Some (snd (posixpath.split k)) else None)
               (map_to_list s))
  | Some (File _) => Raise (OSError "NotADirectoryError" p)
  | None => Raise (OSError "FileNotFoundError" p)
  end.

(** [os.makedirs(p)]: the missing directories on the way are created;
    the last one must not exist. *)
Fixpoint mkdirs (p : string) (ps : list string) (s : t) : result () * t :=
  match ps with
  | [] => (Raise (OSError "FileExistsError" p), s)
  | [leaf] =>
      match s !! leaf with
      | Some _ => (Raise (OSError "FileExistsError" p), s)
      | None => (Ok (), <[leaf := Dir]> s)
      end
  | a :: rest =>
      match s !! a with
      | Some (File _) => (Raise (OSError "NotADirectoryError" p), s)
      | Some Dir => mkdirs p rest s
      | None => mkdirs p rest (<[a := Dir]> s)
      end
  end.

Definition makedirs (p : string) (s : t) : result () * t :=
  if String.eqb p "" then (Raise (OSError "FileNotFoundError" p), s)
  else mkdirs p (paths p) s.

(** [k] with its prefix [src] replaced by [dst], when [k] is [src] or
    lies below it. *)
Definition rebase (src dst k : string) : string :=
  if String.eqb k src then dst
  else if String.prefix (src +:+ "/") k
  then dst +:+ substring (String.length src) (String.length k - String.length src) k
  else k.

(** [os.rename(src, dst)] for normalised paths. *)
Definition rename (src dst : string) (s : t) : result () * t :=
  match s !! src with
  | None => (Raise (OSError "FileNotFoundError" src), s)
  | Some n =>
      match node_at (parent_of dst) s with
      | None => (Raise (OSError "FileNotFoundError" dst), s)
      | Some (File _) => (Raise (OSError "NotADirectoryError" dst), s)
      | Some Dir =>
          match n, s !! dst with
          | Dir, Some (File _) => (Raise (OSError "NotADirectoryError" dst), s)
          | File _, Some Dir => (Raise (OSError "IsADirectoryError" dst), s)
          | Dir, Some Dir => (Raise (OSError "OSError" dst), s)
          | _, _ =>
              (Ok (), list_to_map
                        (prod_map (rebase src dst) id <$> map_to_list (delete dst s)))
          end
      end
  end.

(** [shutil.move(src, dst)]: into [dst] when it is a directory. *)
Definition move (src dst : string) (s : t) : result () * t :=
  if isdir dst s then
    let real_dst := posixpath.join dst (snd (posixpath.split (posixpath.rstrip_sep src))) in
    if exists_ real_dst s
    then (Raise (ShutilError "Destination path already exists"), s)
    else rename (norm src) (norm real_dst) s
  else rename (norm src) (norm dst) s.

Lemma mkdirs_last p ps s s' :
  mkdirs p ps s = (Ok (), s') → ∃ q, last ps = Some q ∧ s' !! q = Some Dir.
Proof.
  revert s. induction ps as [|a [|b rest] IH]; intros s Hmk; simpl in Hmk.
  - discriminate.
  - destruct (s !! a) eqn:Ha; [discriminate|].
    injection Hmk as <-. exists a. split; [done|]. apply lookup_insert_eq.
  - destruct (s !! a) as [[c|]|] eqn:Ha; [discriminate| |];
      apply IH in Hmk as (q & Hq & Hs); exists q; split; try done.
Qed.

Lemma makedirs_exists p s s' :
  makedirs p s = (Ok (), s') → exists_ p s' = true.
Proof.
  unfold makedirs, exists_, node_at.
  destruct (String.eqb p "") eqn:Hp; [discriminate|]. simpl.
  intros Hmk. apply mkdirs_last in Hmk as (q & -> & Hq).
  rewrite Hq. by apply bool_decide_eq_true.
Qed.

#[global] Instance filesystem : FileSystem t := {|
  fs_exists := exists_;
  fs_isfile := isfile;
  fs_listdir := listdir;
  fs_makedirs := makedirs;
  fs_move := move;
  fs_makedirs_exists := makedirs_exists
|}.

End SimpleFS.

(** ** The first script, [copy-files.py]

    Its configuration has the keys [scanDir], [moveDir] and [series] (JSON
    strings and a list of shows); its command line has [--file], [--dest],
    [--scan] and the arguments of the download client. *)

Module Legacy.

Definition IFTTT_URL : string :=
  "https://maker.ifttt.com/trigger/PLEX_NEW/with/key/dFHLoSLaYm8b1VsTyjan1I".

Module Conf.
Record t := {
  scanDir : option string;
  moveDir : option string;
  series : option (list show)
}.
End Conf.

Module Opts.
Record t := {
  file : option string;
  dest : option string;
  scan : option string;
  delugeArgs : list string
}.
End Opts.

(** A local variable read before any assignment ends the script with
    [UnboundLocalError]; this happens only before the script touches the
    disk. *)
Inductive started (A : Type) : Type :=
  | UnboundLocalError (var : string)
  | Started (a : A).
Arguments UnboundLocalError {A} var.
Arguments Started {A} a.

(** Lines 68-80: the file of the run; the torrent arguments count only
    when there are exactly three. *)
Definition file_of (args : Opts.t) : option string :=
  let '(torrent_name, torrent_path) :=
    match Opts.delugeArgs args with
    | [_; name; path] => (Some name, Some path)
    | _ => (None, None)
    end in
  let file :=
    if truthy torrent_name && truthy torrent_path
    then Some (posixpath.join (default "" torrent_path) (default "" torrent_name))
    else None in
  if truthy (Opts.file args) then Opts.file args else file.

(** Lines 86-90: [scan_dir] after the two assignments, [None] when neither
    was made. *)
Definition scan_dir_of (args : Opts.t) (config : Conf.t) : option string :=
  if truthy (Opts.scan args) then Opts.scan args else Conf.scanDir config.

(** Lines 98-102: [move_dir], likewise. *)
Definition move_dir_of (args : Opts.t) (config : Conf.t) : option string :=
  if truthy (Opts.dest args) then Opts.dest args else Conf.moveDir config.

(** Lines 82-109: the locals [file], [scan_dir] and [move_dir] when the
    script reaches line 111. With a file, [scan_dir] is still unassigned;
    the two [logging.exception] calls raise nothing. *)
Definition locals (args : Opts.t) (config : Conf.t)
    : started (option string * option string * string) :=
  let file := file_of args in
  let scan_dir := if truthy file then Some None else Some <$> scan_dir_of args config in
  match scan_dir with
  | None => UnboundLocalError "scan_dir"
  | Some scan_dir =>
      match move_dir_of args config with
      | None => UnboundLocalError "move_dir"
      | Some move_dir => Started (file, scan_dir, move_dir)
      end
  end.

Section script.
Context {RE : Regex} {FS : Type} {FSI : FileSystem FS} (env : collaborators).

(** The inner loop of [match_files], lines 218-229: a show whose pattern
    is empty is passed over with an error message. *)
Fixpoint match_file (f : string) (series : list show) : result (option show) :=
  match series with
  | [] => Ok None
  | show :: rest =>
      _ ← getitem show "name";
      _ ← getitem show "regex";
      regex ← getitem show "regex";
      if truthy (Some regex) then
        regex ← getitem show "regex";
        m ← re_match regex f;
        if (m : bool) then
          _ ← getitem show "name";
          Ok (Some show)
        else match_file f rest
      else
        _ ← getitem show "name";
        match_file f rest
  end.

(** Lines 213-230. *)
Fixpoint match_files_loop (files : list string) (series : list show)
    (matches : list (string * show)) : result (list (string * show)) :=
  match files with
  | [] => Ok matches
  | f :: files' =>
      r ← match_file f series;
      match r with
      | Some show => match_files_loop files' series (matches ++ [(f, show)])
      | None => match_files_loop files' series matches
      end
  end.

Definition match_files (files : list string) (series : list show)
    : result (list (string * show)) :=
  match_files_loop files series [].

(** Lines 149-186: the text of [move_series] of [copy_files.py], with
    [scan_dir] for [start_dir]. *)
Definition move_files (matches : list (string * show))
    (move_dir scan_dir : option string) : prog FS (gset string) :=
  CopyMedia.move_series matches move_dir scan_dir.

(** Lines 111-127, from the locals on. *)
Definition body (config : Conf.t)
    (l : option string * option string * string) : prog FS () :=
  let '(file, scan_dir, move_dir) := l in
  '(files, scan_dir) ←
    (if truthy file then
       let '(scan_dir, file_name) := posixpath.split (default "" file) in
       mret ([file_name], Some scan_dir)
     else
       names ← listdir scan_dir;
       files ← CopyMedia.scan_files scan_dir names;
       mret (files, scan_dir));
  series ← lift (match Conf.series config with
                 | Some s => Ok s
                 | None => Raise (KeyError "series")
                 end);
  matches ← lift (match_files files series);
  move_files matches (Some move_dir) scan_dir;;
  send_notification env matches IFTTT_URL.

(** [main], lines 50-127, with the configuration file given parsed. *)
Definition main (args : Opts.t) (config : Conf.t) : started (prog FS ()) :=
  match locals args config with
  | UnboundLocalError var => UnboundLocalError var
  | Started l => Started (body config l)
  end.

End script.

End Legacy.

(** * Properties *)

(** ** Validated series *)

(** A show that passes [validate_series]: it has a name and a pattern. *)
Definition named (r : show) : Prop := is_Some (r !! "name").
Definition has_pattern (r : show) : Prop := is_Some (r !! "regex").

Lemma getitem_Some (d : show) key v : d !! key = Some v → getitem d key = Ok v.
Proof. unfold getitem. by intros ->. Qed.

Lemma validate_series_Forall series :
  CopyMedia.validate_series series = Ok true ↔
  Forall (λ r, named r ∧ has_pattern r) series.
Proof.
  induction series as [|r rest IH]; simpl.
  - split; [constructor | done].
  - unfold contains, getitem.
    destruct (r !! "name") as [n|] eqn:Hn; simpl.
    + destruct (r !! "regex") as [p|] eqn:Hp; simpl.
      * rewrite IH. split.
        -- intros Hrest. constructor; [|done].
           unfold named, has_pattern. rewrite Hn, Hp. eauto.
        -- by inversion 1.
      * split; [done|]. inversion 1 as [|? ? [_ [? ?]]]; congruence.
    + split; [done|]. inversion 1 as [|? ? [[? ?] _]]; congruence.
Qed.

(** ** Classifier *)

Section classifier_facts.
Context {RE : Regex}.

(** The pattern of [r] matches [f] at its start. *)
Definition pattern_matches (f : string) (r : show) : Prop :=
  ∃ p, r !! "regex" = Some p ∧ re_match p f = Ok true.

#[global] Instance pattern_matches_dec f r : Decision (pattern_matches f r).
Proof.
  unfold pattern_matches.
  destruct (r !! "regex") as [p|].
  - destruct (re_match p f) as [[|]|e] eqn:Hm.
    + left. eauto.
    + right. intros (q & [= <-] & Hq). congruence.
    + right. intros (q & [= <-] & Hq). congruence.
  - right. by intros (q & ? & _).
Defined.

(** Every pattern of the series is one the engine accepts. *)
Definition patterns_valid (series : list show) : Prop :=
  ∀ r p f, r ∈ series → r !! "regex" = Some p → ∃ b, re_match p f = Ok b.

(** The first show in configured order whose pattern matches [f]. *)
Definition first_rule (f : string) (series : list show) : option show :=
  snd <$> list_find (pattern_matches f) series.

Lemma match_file_first f series :
  CopyMedia.validate_series series = Ok true →
  patterns_valid series →
  match_file f series = Ok (first_rule f series).
Proof.
  rewrite validate_series_Forall. unfold first_rule.
  induction series as [|r rest IH]; intros Hv Hp; [done|].
  inversion Hv as [|? ? [[n Hn] [p Hr]] Hrest]; subst.
  simpl. rewrite !(getitem_Some _ _ _ Hn), !(getitem_Some _ _ _ Hr). simpl.
  destruct (Hp r p f) as [b Hb]; [left | done |].
  rewrite Hb. simpl. destruct b.
  - rewrite decide_True; [done | by exists p].
  - rewrite decide_False; last first.
    { intros (q & Hq & Hm). congruence. }
    rewrite IH; [|done|].
    + by destruct (list_find _ rest) as [[i x]|].
    + intros r' p' f' Hin. apply Hp. by right.
Qed.

Lemma match_files_loop_spec files series ms ns :
  CopyMedia.validate_series series = Ok true →
  patterns_valid series →
  match_files_loop files (Some series) ms ns =
    Ok (ms ++ omap (λ f, pair f <$> first_rule f series) files,
        ns ++ filter (λ f, first_rule f series = None) files).
Proof.
  intros Hv Hp. revert ms ns.
  induction files as [|f files IH]; intros ms ns; simpl.
  - by rewrite !app_nil_r.
  - rewrite match_file_first by done. simpl.
    rewrite filter_cons.
    destruct (first_rule f series) as [r|] eqn:Hr; simpl.
    + rewrite IH. by rewrite <- app_assoc.
    + rewrite IH. by rewrite <- app_assoc.
Qed.

(** C1. For validated rules with valid patterns, [match_files] does not
    raise: it pairs every file, in input order, with the first show in
    configured order whose pattern matches it at the start (one show at
    most per file), and lists the files no pattern matches as
    nonmatches. *)
Theorem match_files_first_match files series :
  CopyMedia.validate_series series = Ok true →
  patterns_valid series →
  ∃ matches nonmatches,
    match_files files (Some series) = Ok (matches, nonmatches) ∧
    matches = omap (λ f, pair f <$> first_rule f series) files ∧
    nonmatches = filter (λ f, first_rule f series = None) files ∧
    ∀ f,
      match first_rule f series with
      | Some r =>
          ∃ i, series !! i = Some r ∧ pattern_matches f r ∧
               ∀ j r', j < i → series !! j = Some r' → ¬ pattern_matches f r'
      | None => ∀ r, r ∈ series → ¬ pattern_matches f r
      end.
Proof.
  intros Hv Hp. eexists _, _. split; [|split; [reflexivity|split; [reflexivity|]]].
  - unfold match_files. by rewrite match_files_loop_spec.
  - intros f. unfold first_rule.
    destruct (list_find (pattern_matches f) series) as [[i r]|] eqn:Hf; simpl.
    + apply list_find_Some in Hf as (Hi & Hm & Hfirst).
      exists i. split; [done|]. split; [done|].
      intros j r' Hj Hr'. by eapply Hfirst.
    + apply list_find_None in Hf. intros r Hin.
      by eapply Forall_forall in Hf.
Qed.

End classifier_facts.

(** ** Programs: how results and worlds flow *)

Lemma result_bind_ok {A B} (m : result A) (k : A → result B) b :
  m ≫= k = Ok b → ∃ a, m = Ok a ∧ k a = Ok b.
Proof. destruct m as [a|e]; simpl; [eauto | discriminate]. Qed.

Section prog_facts.
Context {FS : Type}.

Lemma prog_bind_unfold {A B} (m : prog FS A) (k : A → prog FS B) w :
  (m ≫= k) w =
    match m w with
    | (Ok a, w') => k a w'
    | (Raise e, w') => (Raise e, w')
    end.
Proof. reflexivity. Qed.

Lemma prog_bind_ok {A B} (m : prog FS A) (k : A → prog FS B) w b w' :
  (m ≫= k) w = (Ok b, w') → ∃ a w1, m w = (Ok a, w1) ∧ k a w1 = (Ok b, w').
Proof.
  rewrite prog_bind_unfold. destruct (m w) as [[a|e] w1]; [eauto | discriminate].
Qed.

Lemma lift_ok {A} (r : result A) w a w' :
  lift (FS:=FS) r w = (Ok a, w') → r = Ok a ∧ w' = w.
Proof. unfold lift. by intros [= -> ->]. Qed.

End prog_facts.

(** ** Relocator *)

Section relocator_facts.
Context {RE : Regex} {FS : Type} {FSI : FileSystem FS} (env : collaborators).

(** The folder of a show under the series root: its [destination] if it
    has one, else its [name]. *)
Definition subfolder (r : show) (sub : string) : Prop :=
  r !! "destination" = Some sub ∨
  (r !! "destination" = None ∧ r !! "name" = Some sub).

(** The name of [f] at its destination: [f] rewritten by one [re.sub] of
    the show's [replace] with the show's own [regex] as the search
    pattern, or [f] itself when the show has no [replace]. *)
Definition new_name (f : string) (r : show) (n : string) : Prop :=
  (r !! "replace" = None ∧ n = f) ∨
  (∃ repl p, r !! "replace" = Some repl ∧ r !! "regex" = Some p ∧
             re_sub p repl f = Ok n).

Lemma dest_file_name_ok f r n :
  CopyMedia.dest_file_name f r = Ok n → new_name f r n.
Proof.
  unfold CopyMedia.dest_file_name, contains, getitem, new_name.
  destruct (r !! "replace") as [repl|]; [|intros [= <-]; by left].
  destruct (r !! "regex") as [p|]; simpl; [|discriminate].
  intros Hs. right. eauto.
Qed.

Lemma dest_dir_ok md r dest :
  CopyMedia.dest_dir (Some md) r = Ok dest →
  ∃ sub, subfolder r sub ∧ dest = posixpath.join md sub.
Proof.
  unfold CopyMedia.dest_dir, contains, getitem, subfolder.
  destruct (r !! "destination") as [d|]; simpl.
  - intros [= <-]. eauto.
  - destruct (r !! "name") as [n|]; simpl; [|discriminate].
    intros [= <-]. eauto.
Qed.

Lemma ensure_dir_calls dest w r w' :
  CopyMedia.ensure_dir dest w = (r, w') →
  calls w' = calls w ∨ calls w' = calls w ++ [Makedirs dest].
Proof.
  unfold CopyMedia.ensure_dir, path_exists, makedirs.
  rewrite prog_bind_unfold.
  destruct (fs_exists dest (fs w)); simpl.
  - intros [= _ <-]. by left.
  - destruct (fs_makedirs dest (fs w)) as [r' s]. intros [= _ <-]. by right.
Qed.

(** One step of [move_series], whatever its outcome: at most a [makedirs],
    then at most one move, to the computed destination; a step that
    completes has moved. *)
Lemma move_series_step_moves md sd f r (w : world FS) res w' :
  CopyMedia.move_series_step (Some md) (Some sd) (f, r) w = (res, w') →
  ∃ cs,
    calls w' = calls w ++ cs ∧
    ((filter is_move cs = [] ∧ is_ok res = false) ∨
     (∃ sub n,
        subfolder r sub ∧ new_name f r n ∧
        filter is_move cs =
          [Move (posixpath.join sd f) (posixpath.join (posixpath.join md sub) n)])).
Proof.
  unfold CopyMedia.move_series_step. rewrite !prog_bind_unfold. unfold lift at 1.
  destruct (CopyMedia.dest_file_name f r) as [n|e] eqn:Hn; cbv beta iota; last first.
  { intros [= <- <-]. exists []. rewrite app_nil_r. split; [done|]. by left. }
  rewrite !prog_bind_unfold. unfold lift at 1.
  destruct (CopyMedia.dest_dir (Some md) r) as [dest|e] eqn:Hd; cbv beta iota;
    last first.
  { intros [= <- <-]. exists []. rewrite app_nil_r. split; [done|]. by left. }
  apply dest_file_name_ok in Hn. apply dest_dir_ok in Hd as (sub & Hsub & ->).
  rewrite !prog_bind_unfold.
  destruct (CopyMedia.ensure_dir _ w) as [re w1] eqn:He.
  apply ensure_dir_calls in He.
  destruct re as [[]|e]; last first.
  { intros [= <- <-]. destruct He as [-> | ->].
    - exists []. rewrite app_nil_r. split; [done|]. by left.
    - eexists. split; [done|]. by left. }
  rewrite !prog_bind_unfold. unfold lift at 1. simpl.
  rewrite !prog_bind_unfold. unfold shutil_move.
  destruct (fs_move _ _ (fs w1)) as [rm s]. intros Hres.
  assert (calls w' = calls w1 ++ [Move (posixpath.join sd f)
                                       (posixpath.join (posixpath.join md sub) n)])
    as Hc.
  { destruct rm as [[]|e]; by injection Hres as _ <-. }
  destruct He as [He | He]; rewrite He in Hc.
  - eexists. split; [done|]. right. exists sub, n. done.
  - rewrite <- app_assoc in Hc. eexists. split; [done|]. right. exists sub, n. done.
Qed.

(** C2. Whatever the outcome of [move_series], the moves it issued are,
    match by match and in order, from [join(start_dir, filename)] to
    [join(join(move_dir, destination-or-name), destFileName)], where
    [destFileName] is the result of one [re.sub] of the show's [replace]
    over the filename with the show's [regex] as the search pattern when
    the show has a [replace], and the filename itself otherwise; when
    [move_series] completes there is one such move for every match. *)
Theorem move_series_destination matches md sd (w : world FS) res w' :
  CopyMedia.move_series matches (Some md) (Some sd) w = (res, w') →
  ∃ cs moved,
    calls w' = calls w ++ cs ∧
    moved `prefix_of` matches ∧
    (is_ok res → moved = matches) ∧
    Forall2 (λ m c, ∃ sub n,
               subfolder m.2 sub ∧ new_name m.1 m.2 n ∧
               c = Move (posixpath.join sd m.1)
                        (posixpath.join (posixpath.join md sub) n))
            moved (filter is_move cs).
Proof.
  unfold CopyMedia.move_series. generalize (∅ : gset string).
  revert w. induction matches as [|[f r] rest IH]; intros w D.
  - intros [= <- <-]. exists [], []. rewrite app_nil_r.
    repeat split; [done | constructor].
  - cbn [CopyMedia.move_series_loop]. rewrite prog_bind_unfold.
    destruct (CopyMedia.move_series_step (Some md) (Some sd) (f, r) w)
      as [rs w1] eqn:Hstep.
    apply move_series_step_moves in Hstep as (cs1 & Hc1 & Hmv).
    destruct rs as [dest|e].
    + destruct Hmv as [[_ ?] | (sub & n & Hsub & Hn & Hm1)]; [done|].
      intros Hloop. apply IH in Hloop as (cs2 & moved & Hc2 & Hpre & Hall & Hmoves).
      exists (cs1 ++ cs2), ((f, r) :: moved).
      split; [by rewrite Hc2, Hc1, app_assoc|].
      split; [by apply prefix_cons|].
      split; [intros Hok; by rewrite Hall|].
      rewrite filter_app, Hm1. simpl. constructor; [|done].
      exists sub, n. eauto.
    + intros [= <- <-]. destruct Hmv as [[Hm1 _] | (sub & n & Hsub & Hn & Hm1)].
      * exists cs1, []. split; [done|]. split; [apply prefix_nil|].
        split; [done|]. rewrite Hm1. constructor.
      * exists cs1, [(f, r)]. split; [done|].
        split; [apply prefix_cons, prefix_nil|]. split; [done|].
        rewrite Hm1. constructor; [|constructor]. exists sub, n. eauto.
Qed.

End relocator_facts.

(** ** What a run changes, whatever its outcome *)

Section sources.
Context {RE : Regex} {FS : Type} {FSI : FileSystem FS} (env : collaborators).

(** Every move among [cs] reads [join(start_dir, f)] for one of [names]. *)
Definition sourced_from (start_dir : option string) (names : list string)
    (cs : list call) : Prop :=
  ∀ src dst, Move src dst ∈ cs →
    ∃ d f, start_dir = Some d ∧ f ∈ names ∧ src = posixpath.join d f.

Lemma sourced_from_nil sd names : sourced_from sd names [].
Proof. intros src dst Hin. by apply elem_of_nil in Hin. Qed.

Lemma sourced_from_app sd names cs1 cs2 :
  sourced_from sd names cs1 → sourced_from sd names cs2 →
  sourced_from sd names (cs1 ++ cs2).
Proof.
  intros Hcs1 Hcs2 src dst Hin. apply elem_of_app in Hin as [Hin|Hin]; eauto.
Qed.

Lemma sourced_from_mono sd names names' cs :
  names ⊆ names' → sourced_from sd names cs → sourced_from sd names' cs.
Proof.
  intros Hsub Hs src dst Hin. destruct (Hs _ _ Hin) as (d & f & ? & ? & ?).
  exists d, f. eauto.
Qed.

Lemma move_series_step_sources md sd f r w res w' :
  CopyMedia.move_series_step md sd (f, r) w = (res, w') →
  ∃ cs, calls w' = calls w ++ cs ∧ sourced_from sd [f] cs ∧
        ∀ url v, Post url v ∉ cs.
Proof.
  unfold CopyMedia.move_series_step. rewrite !prog_bind_unfold. unfold lift at 1.
  destruct (CopyMedia.dest_file_name f r) as [n|e]; last first.
  { intros [= _ <-]. exists []. rewrite app_nil_r.
    split; [done|]. split; [apply sourced_from_nil | intros ? ?; apply not_elem_of_nil]. }
  rewrite !prog_bind_unfold. unfold lift at 1.
  destruct (CopyMedia.dest_dir md r) as [dest|e]; last first.
  { intros [= _ <-]. exists []. rewrite app_nil_r.
    split; [done|]. split; [apply sourced_from_nil | intros ? ?; apply not_elem_of_nil]. }
  rewrite !prog_bind_unfold.
  destruct (CopyMedia.ensure_dir dest w) as [re w1] eqn:He.
  assert (∃ cs1, calls w1 = calls w ++ cs1 ∧ sourced_from sd [f] cs1 ∧
                 ∀ url v, Post url v ∉ cs1) as (cs1 & Hc1 & Hs1 & Hp1).
  { apply ensure_dir_calls in He as [->| ->].
    - exists []. rewrite app_nil_r. split; [done|].
      split; [apply sourced_from_nil | intros ? ?; apply not_elem_of_nil].
    - eexists. split; [done|]. split.
      + intros src dst Hin. apply list_elem_of_singleton in Hin. discriminate.
      + intros url v Hin. apply list_elem_of_singleton in Hin. discriminate. }
  destruct re as [[]|e]; [|intros [= _ <-]; eauto].
  rewrite !prog_bind_unfold. unfold lift at 1.
  destruct sd as [d|]; simpl; [|intros [= _ <-]; eauto].
  rewrite !prog_bind_unfold. unfold shutil_move.
  destruct (fs_move _ _ (fs w1)) as [rm s].
  intros Hres.
  assert (calls w' = calls w1 ++ [Move (posixpath.join d f) (posixpath.join dest n)])
    as Hc.
  { destruct rm as [[]|e]; by injection Hres as _ <-. }
  eexists. split; [by rewrite Hc, Hc1, <- app_assoc|]. split.
  - apply sourced_from_app; [done|].
    intros src dst Hin. apply list_elem_of_singleton in Hin as [= -> ->].
    exists d, f. split; [done|]. split; [by left | done].
  - intros url v Hin. apply elem_of_app in Hin as [Hin|Hin].
    + by eapply Hp1.
    + apply list_elem_of_singleton in Hin. discriminate.
Qed.

Lemma move_series_loop_sources matches md sd D w res w' :
  CopyMedia.move_series_loop matches md sd D w = (res, w') →
  ∃ cs, calls w' = calls w ++ cs ∧ sourced_from sd matches.*1 cs ∧
        ∀ url v, Post url v ∉ cs.
Proof.
  revert D w. induction matches as [|[f r] rest IH]; intros D w; cbn [CopyMedia.move_series_loop].
  - intros [= _ <-]. exists []. rewrite app_nil_r.
    split; [done|]. split; [apply sourced_from_nil | intros ? ?; apply not_elem_of_nil].
  - rewrite prog_bind_unfold.
    destruct (CopyMedia.move_series_step md sd (f, r) w) as [rs w1] eqn:Hstep.
    apply move_series_step_sources in Hstep as (cs1 & Hc1 & Hs1 & Hp1).
    assert (sourced_from sd (f :: rest.*1) cs1) as Hs1'.
    { eapply sourced_from_mono; [|done]. set_solver. }
    destruct rs as [dest|e]; [|intros [= _ <-]; eauto].
    intros Hloop. apply IH in Hloop as (cs2 & Hc2 & Hs2 & Hp2).
    exists (cs1 ++ cs2). split; [by rewrite Hc2, Hc1, app_assoc|]. split.
    + apply sourced_from_app; [done|].
      eapply sourced_from_mono; [|done]. set_solver.
    + intros url v Hin. apply elem_of_app in Hin as [Hin|Hin]; [by eapply Hp1 | by eapply Hp2].
Qed.

Lemma move_movies_sources files md sd w res w' :
  CopyMedia.move_movies files md sd w = (res, w') →
  ∃ cs, calls w' = calls w ++ cs ∧ sourced_from sd files cs ∧
        ∀ url v, Post url v ∉ cs.
Proof.
  revert w. induction files as [|f rest IH]; intros w; simpl.
  - intros [= _ <-]. exists []. rewrite app_nil_r.
    split; [done|]. split; [apply sourced_from_nil | intros ? ?; apply not_elem_of_nil].
  - rewrite prog_bind_unfold. unfold lift at 1.
    destruct sd as [d|]; simpl; last first.
    { intros [= _ <-]. exists []. rewrite app_nil_r.
      split; [done|]. split; [apply sourced_from_nil | intros ? ?; apply not_elem_of_nil]. }
    rewrite prog_bind_unfold. unfold lift at 1.
    destruct md as [m|]; simpl; last first.
    { intros [= _ <-]. exists []. rewrite app_nil_r.
      split; [done|]. split; [apply sourced_from_nil | intros ? ?; apply not_elem_of_nil]. }
    rewrite prog_bind_unfold. unfold shutil_move.
    destruct (fs_move _ _ (fs w)) as [rm s].
    assert (sourced_from (Some d) (f :: rest)
              [Move (posixpath.join d f) (posixpath.join m f)]) as Hs1.
    { intros src dst Hin. apply list_elem_of_singleton in Hin as [= -> ->].
      exists d, f. split; [done|]. split; [by left | done]. }
    assert (∀ url v, Post url v ∉ [Move (posixpath.join d f) (posixpath.join m f)])
      as Hp1.
    { intros url v Hin. apply list_elem_of_singleton in Hin. discriminate. }
    destruct rm as [[]|e]; [|intros [= _ <-]; eauto].
    intros Hrest. apply IH in Hrest as (cs2 & Hc2 & Hs2 & Hp2). simpl in Hc2.
    eexists (_ :: cs2). split; [by rewrite Hc2, <- app_assoc|]. split.
    + apply (sourced_from_app _ _ [_]); [done|].
      eapply sourced_from_mono; [|done]. set_solver.
    + intros url v Hin. apply elem_of_cons in Hin as [Hin|Hin]; [discriminate | by eapply Hp2].
Qed.

Lemma send_notification_calls matches url (w : world FS) res w' :
  send_notification env matches url w = (res, w') →
  ∃ cs, calls w' = calls w ++ cs ∧ ∀ src dst, Move src dst ∉ cs.
Proof.
  unfold send_notification. destruct matches as [|m rest].
  - intros [= _ <-]. exists []. rewrite app_nil_r.
    split; [done | intros ? ?; apply not_elem_of_nil].
  - rewrite prog_bind_unfold. unfold lift at 1.
    destruct (names_of (m :: rest)) as [names|e].
    + unfold post. intros [= _ <-]. simpl. eexists. split; [done|].
      intros src dst Hin. apply list_elem_of_singleton in Hin. discriminate.
    + intros [= _ <-]. exists []. rewrite app_nil_r.
      split; [done | intros ? ?; apply not_elem_of_nil].
Qed.

(** Reading the input changes nothing. *)
Lemma scan_files_world sd names w res w' :
  CopyMedia.scan_files (FS:=FS) sd names w = (res, w') → w' = w.
Proof.
  revert res w'. induction names as [|f rest IH]; intros res w'; simpl.
  - by intros [= _ <-].
  - rewrite prog_bind_unfold. unfold lift at 1.
    destruct (posixpath.join_opt sd f) as [p|e]; [|by intros [= _ <-]].
    rewrite prog_bind_unfold. unfold isfile at 1.
    rewrite prog_bind_unfold.
    destruct (CopyMedia.scan_files sd rest w) as [[l|e] w1];
      rewrite (IH _ _ eq_refl); by intros [= _ <-].
Qed.

Lemma input_files_world self w res w' :
  CopyMedia.input_files (FS:=FS) self w = (res, w') → w' = w.
Proof.
  unfold CopyMedia.input_files. destruct (truthy (CopyMedia.file self)).
  - destruct (posixpath.split _) as [d n]. by intros [= _ <-].
  - rewrite prog_bind_unfold. unfold listdir at 1.
    destruct (fs_listdir _ (fs w)) as [names|e]; [|by intros [= _ <-]].
    apply scan_files_world.
Qed.

(** The matches and the nonmatches are files of the input. *)
Lemma match_files_loop_names files series ms ns ms' ns' :
  match_files_loop files series ms ns = Ok (ms', ns') →
  ms'.*1 ⊆ ms.*1 ++ files ∧ ns' ⊆ ns ++ files.
Proof.
  revert ms ns. induction files as [|f rest IH]; intros ms ns; simpl.
  - intros [= <- <-]. rewrite !app_nil_r. done.
  - destruct series as [series|]; [|discriminate].
    intros Hloop. apply result_bind_ok in Hloop as (o & _ & Hloop).
    destruct o as [r|]; apply IH in Hloop as [Hm Hn].
    + rewrite fmap_app in Hm. simpl in Hm. split; set_solver.
    + split; set_solver.
Qed.

Lemma movie_files_of_subset files key ms :
  CopyMedia.movie_files_of env files key = Ok ms → ms ⊆ files.
Proof.
  revert ms. induction files as [|f rest IH]; intros ms; simpl.
  - by intros [= <-].
  - intros Hm. apply result_bind_ok in Hm as (b & _ & Hm).
    apply result_bind_ok in Hm as (ms0 & Hms0 & [= <-]).
    apply IH in Hms0. destruct b; set_solver.
Qed.

End sources.

(** ** Failures *)

Section failures.
Context {RE : Regex} {FS : Type} {FSI : FileSystem FS} (env : collaborators).



(** C9. Once the directory-ensure step has succeeded, running it again on
    the same path succeeds and changes nothing: no directory is created
    and the world is the same. *)
Theorem ensure_dir_idempotent dest (w w1 : world FS) :
  CopyMedia.ensure_dir dest w = (Ok (), w1) →
  CopyMedia.ensure_dir dest w1 = (Ok (), w1).
Proof.
  unfold CopyMedia.ensure_dir, path_exists, makedirs.
  rewrite !prog_bind_unfold.
  destruct (fs_exists dest (fs w)) eqn:Hex; simpl.
  - intros [= <-]. by rewrite Hex.
  - destruct (fs_makedirs dest (fs w)) as [r s] eqn:Hmk.
    intros [= -> <-]. simpl.
    by rewrite (fs_makedirs_exists _ _ _ Hmk).
Qed.

Lemma movie_files_of_raise pre f post key e :
  Forall (λ g, is_ok (is_movie env g key)) pre →
  is_movie env f key = Raise e →
  CopyMedia.movie_files_of env (pre ++ f :: post) key = Raise e.
Proof.
  intros Hpre Hf. induction Hpre as [|g pre Hg _ IH]; simpl.
  - by rewrite Hf.
  - destruct (is_movie env g key) as [b|e']; [|done]. simpl. by rewrite IH.
Qed.

(** C5, as the program has it. In the movie branch (no series match, a
    movie root set), an exception of [is_movie] on any file leaves
    [execute]: the run ends with that exception and has changed nothing,
    no file has been moved. *)
Theorem lookup_failure_aborts self (w w' : world FS) files nonmatches md pre f post e :
  CopyMedia.input_files self w = (Ok files, w') →
  match_files files (CopyMedia.series self) = Ok ([], nonmatches) →
  nonmatches ≠ [] →
  CopyMedia.moviedir self = Some md →
  files = pre ++ f :: post →
  Forall (λ g, is_ok (is_movie env g (CopyMedia.tmdb self))) pre →
  is_movie env f (CopyMedia.tmdb self) = Raise e →
  CopyMedia.execute env self w = (Raise e, w).
Proof.
  intros Hin Hm Hne Hmd -> Hpre Hf.
  pose proof (input_files_world _ _ _ _ Hin) as ->.
  unfold CopyMedia.execute. rewrite prog_bind_unfold, Hin. cbv beta iota.
  rewrite prog_bind_unfold. unfold lift at 1. rewrite Hm. cbv beta iota.
  destruct nonmatches as [|g ns]; [done|]. rewrite Hmd.
  rewrite prog_bind_unfold. unfold lift.
  by rewrite (movie_files_of_raise _ _ _ _ _ Hpre Hf).
Qed.

(** With [self.file] set, the only file of the run is the last component
    of the path, and every move [execute] issues, whatever its outcome,
    reads [join(self.scandir, basename)]. *)
Lemma execute_explicit_file self path (w : world FS) res w' :
  CopyMedia.file self = Some path →
  path ≠ "" →
  CopyMedia.execute env self w = (res, w') →
  CopyMedia.input_files self w = (Ok [(posixpath.split path).2], w) ∧
  ∃ cs,
    calls w' = calls w ++ cs ∧
    ∀ src dst, Move src dst ∈ cs →
      ∃ sd, CopyMedia.scandir self = Some sd ∧
            src = posixpath.join sd (posixpath.split path).2.
Proof.
  intros Hfile Hne Hex.
  assert (CopyMedia.input_files self w = (Ok [(posixpath.split path).2], w)) as Hin.
  { unfold CopyMedia.input_files, truthy. rewrite Hfile. simpl.
    destruct (String.eqb path "") eqn:Hp; [by apply String.eqb_eq in Hp|]. simpl.
    by destruct (posixpath.split path). }
  split; [done|]. revert Hin. generalize (posixpath.split path).2. intros name Hin.
  revert Hex. unfold CopyMedia.execute. rewrite prog_bind_unfold, Hin. cbv beta iota.
  rewrite prog_bind_unfold. unfold lift at 1.
  destruct (match_files [name] (CopyMedia.series self)) as [[ms ns]|e] eqn:Hm;
    cbv beta iota; last first.
  { intros [= _ <-]. exists []. rewrite app_nil_r. split; [done|].
    intros src dst Hc. by apply elem_of_nil in Hc. }
  apply match_files_loop_names in Hm as [Hms Hns]. simpl in Hms, Hns.
  assert (∀ cs names, names ⊆ [name] →
            sourced_from (CopyMedia.scandir self) names cs →
            ∀ src dst, Move src dst ∈ cs →
              ∃ sd, CopyMedia.scandir self = Some sd ∧ src = posixpath.join sd name)
    as Hsrc.
  { intros cs names Hsub Hs src dst Hc.
    destruct (Hs _ _ Hc) as (d & g & Hd & Hg & ->).
    apply Hsub, list_elem_of_singleton in Hg as ->. eauto. }
  destruct ms as [|m ms].
  - destruct ns as [|g ns]; [|destruct (CopyMedia.moviedir self) as [md|] eqn:Hmd].
    + intros [= _ <-]. exists []. rewrite app_nil_r. split; [done|].
      intros src dst Hc. by apply elem_of_nil in Hc.
    + rewrite prog_bind_unfold. unfold lift at 1.
      destruct (CopyMedia.movie_files_of env [name] (CopyMedia.tmdb self))
        as [mf|e] eqn:Hmf; last first.
      { intros [= _ <-]. exists []. rewrite app_nil_r. split; [done|].
        intros src dst Hc. by apply elem_of_nil in Hc. }
      apply movie_files_of_subset in Hmf.
      intros Hmv. apply move_movies_sources in Hmv as (cs & Hcs & Hs & _).
      exists cs. split; [done|]. apply (Hsrc _ _ Hmf Hs).
    + intros [= _ <-]. exists []. rewrite app_nil_r. split; [done|].
      intros src dst Hc. by apply elem_of_nil in Hc.
  - rewrite prog_bind_unfold.
    destruct (CopyMedia.move_series (m :: ms) _ _ w) as [rs w1] eqn:Hmv.
    apply move_series_loop_sources in Hmv as (cs1 & Hc1 & Hs1 & _).
    destruct rs as [D|e]; last first.
    { intros [= _ <-]. exists cs1. split; [done|]. apply (Hsrc _ _ Hms Hs1). }
    destruct (CopyMedia.ifttt_url self) as [url|].
    + intros Hn. apply send_notification_calls in Hn as (cs2 & Hc2 & Hnm).
      exists (cs1 ++ cs2). split; [by rewrite Hc2, Hc1, app_assoc|].
      intros src dst Hc. apply elem_of_app in Hc as [Hc|Hc].
      * by apply (Hsrc _ _ Hms Hs1 src dst).
      * by apply Hnm in Hc.
    + intros [= _ <-]. exists cs1. split; [done|]. apply (Hsrc _ _ Hms Hs1).
Qed.

(** With a file given, loading keeps it and takes the scan directory from
    the command line alone. *)
Lemma init_explicit_file iu sd srd path t md config c :
  path ≠ "" →
  CopyMedia.init iu sd srd (Some path) t md config = Ok c →
  CopyMedia.file c = Some path ∧ CopyMedia.scandir c = sd.
Proof.
  intros Hne. unfold CopyMedia.init, CopyMedia.process_configs, truthy.
  cbn [CopyMedia.file CopyMedia.scandir CopyMedia.seriesdir CopyMedia.moviedir].
  destruct (String.eqb path "") eqn:Hp; [by apply String.eqb_eq in Hp|].
  cbn [negb andb].
  repeat match goal with
         | |- context [if ?b then Raise _ else _] => destruct b; [discriminate|]
         end.
  destruct (Config.series config) as [rules|].
  - intros Hv. apply result_bind_ok in Hv as (b & _ & [= <-]). done.
  - by intros [= <-].
Qed.

(** C10. When a file is given, by [--file] or by the arguments of the
    download client, the only file of the run is the last component of its
    path, and every move the run issues, whatever its outcome, reads
    [join(scandir, basename)] where [scandir] is the scan directory of the
    command line: the directory of the given path is not used. *)
Theorem explicit_file_source base args config path (w : world FS) res w' :
  explicit_file args = Some path →
  path ≠ "" →
  main env base args config w = (res, w') →
  (∀ c, CopyMedia.init (trigger_url base args) (Args.scan args) (Args.dest args)
          (Some path) (Args.tmdb args) (Args.moviedest args) config = Ok c →
        CopyMedia.input_files c w = (Ok [(posixpath.split path).2], w)) ∧
  ∃ cs,
    calls w' = calls w ++ cs ∧
    ∀ src dst, Move src dst ∈ cs →
      ∃ sd, Args.scan args = Some sd ∧
            src = posixpath.join sd (posixpath.split path).2.
Proof.
  intros Hfile Hne. unfold main, CopyMedia.run. rewrite Hfile.
  rewrite prog_bind_unfold. unfold lift.
  destruct (CopyMedia.init _ _ _ _ _ _ config) as [c|e] eqn:Hinit.
  - destruct (init_explicit_file _ _ _ _ _ _ _ _ Hne Hinit) as [Hf Hs].
    intros Hex.
    destruct (execute_explicit_file c path w res w' Hf Hne Hex) as (Hin & cs & Hcs & Hsrc).
    split; [by intros c' [= <-]|].
    exists cs. split; [done|]. intros src dst Hc.
    destruct (Hsrc _ _ Hc) as (sd & Hsd & ->). exists sd. by rewrite <- Hs.
  - intros [= _ <-]. split; [done|]. exists []. rewrite app_nil_r. split; [done|].
    intros src dst Hc. by apply elem_of_nil in Hc.
Qed.

End failures.

(** ** Bare file names and joined paths *)

(** A bare file name has no slash, as the names [os.listdir] returns and
    the last component [split] gives. *)
Fixpoint has_sep (f : string) : bool :=
  match f with
  | EmptyString => false
  | String c r => Ascii.eqb c posixpath.sep || has_sep r
  end.

(** [move_dir] as the prefix of what is joined to it. *)
Definition dir_prefix (d : string) : string :=
  if String.eqb d "" || posixpath.endswith_sep d then d else d +:+ "/".

Lemma string_app_nil (b : string) : "" +:+ b = b.
Proof. reflexivity. Qed.

Lemma string_app_cons c (a b : string) : String c a +:+ b = String c (a +:+ b).
Proof. reflexivity. Qed.

Lemma string_app_assoc (a b c : string) : (a +:+ b) +:+ c = a +:+ (b +:+ c).
Proof.
  induction a as [|x a IH]; [done|].
  rewrite !string_app_cons. by f_equal.
Qed.

Lemma string_app_nonempty (a : string) c b : String.eqb (a +:+ String c b) "" = false.
Proof. by destruct a. Qed.

Lemma rsplit_bare f : has_sep f = false → posixpath.rsplit f = ("", f).
Proof.
  induction f as [|c f IH]; simpl; [done|].
  intros Hs. apply orb_false_iff in Hs as [Hc Hf].
  rewrite (IH Hf). simpl. by rewrite Hc.
Qed.

Lemma rsplit_sep_bare a f :
  has_sep f = false → posixpath.rsplit (a +:+ String "/" f) = (a +:+ "/", f).
Proof.
  intros Hf. induction a as [|c a IH].
  - rewrite !string_app_nil. simpl. by rewrite (rsplit_bare f Hf).
  - rewrite !string_app_cons. simpl. rewrite IH. by rewrite string_app_nonempty.
Qed.

Lemma endswith_sep_app d : posixpath.endswith_sep d = true → ∃ a, d = a +:+ "/".
Proof.
  induction d as [|c d IH]; simpl; [done|].
  destruct d as [|c' d'].
  - intros Hc. apply Ascii.eqb_eq in Hc as ->. by exists "".
  - intros Hd. destruct (IH Hd) as [a ->]. exists (String c a).
    by rewrite string_app_cons.
Qed.

Lemma split_snd p : (posixpath.split p).2 = (posixpath.rsplit p).2.
Proof.
  unfold posixpath.split. destruct (posixpath.rsplit p) as [h t].
  by destruct (negb (String.eqb h "") && negb (posixpath.all_sep h)).
Qed.

Lemma has_sep_startswith f : has_sep f = false → posixpath.startswith_sep f = false.
Proof.
  destruct f as [|c f]; simpl; [done|].
  intros Hs. by apply orb_false_iff in Hs as [-> _].
Qed.

Lemma join_bare d f : has_sep f = false → posixpath.join d f = dir_prefix d +:+ f.
Proof.
  intros Hf. unfold posixpath.join, dir_prefix.
  rewrite (has_sep_startswith f Hf).
  destruct (String.eqb d "" || posixpath.endswith_sep d); [done|].
  by rewrite string_app_assoc.
Qed.

Lemma basename_join d f :
  has_sep f = false → (posixpath.split (posixpath.join d f)).2 = f.
Proof.
  intros Hf. rewrite split_snd. unfold posixpath.join.
  rewrite (has_sep_startswith f Hf).
  destruct (String.eqb d "") eqn:Hd; simpl.
  - apply String.eqb_eq in Hd as ->. rewrite string_app_nil.
    by rewrite (rsplit_bare f Hf).
  - destruct (posixpath.endswith_sep d) eqn:He.
    + apply endswith_sep_app in He as [a ->].
      rewrite string_app_assoc, string_app_cons, string_app_nil.
      by rewrite rsplit_sep_bare.
    + rewrite string_app_cons, string_app_nil. by rewrite rsplit_sep_bare.
Qed.

(** The last component that [split] gives is bare. *)
Lemma rsplit_tail_bare p : has_sep (posixpath.rsplit p).2 = false.
Proof.
  induction p as [|c p IH]; simpl; [done|].
  destruct (posixpath.rsplit p) as [h t] eqn:Hr. simpl in IH.
  destruct (String.eqb h "") eqn:Hh; simpl; [|done].
  apply String.eqb_eq in Hh as ->.
  assert (t = p) as ->.
  { clear IH. revert t Hr. induction p as [|c' p IHp]; intros t Hr.
    - by injection Hr.
    - simpl in Hr. destruct (posixpath.rsplit p) as [h' t'].
      destruct (String.eqb h' "") eqn:Hh'; simpl in Hr; [|by injection Hr].
      apply String.eqb_eq in Hh' as ->.
      destruct (Ascii.eqb c' posixpath.sep); by injection Hr. }
  destruct (Ascii.eqb c posixpath.sep) eqn:Hc; simpl; [done|].
  by rewrite Hc.
Qed.

(** ** Movies, configuration, notification *)

Section movies.
Context {RE : Regex} {FS : Type} {FSI : FileSystem FS} (env : collaborators).

Lemma move_movies_ok files md sd (w w' : world FS) :
  CopyMedia.move_movies files (Some md) (Some sd) w = (Ok (), w') →
  calls w' =
    calls w ++ ((λ f, Move (posixpath.join sd f) (posixpath.join md f)) <$> files).
Proof.
  revert w. induction files as [|f rest IH]; intros w; simpl.
  - intros [= <-]. by rewrite app_nil_r.
  - intros Hmv.
    apply prog_bind_ok in Hmv as (src & w1 & Hsrc & Hmv).
    apply lift_ok in Hsrc as [[= <-] ->].
    apply prog_bind_ok in Hmv as (dst & w1 & Hdst & Hmv).
    apply lift_ok in Hdst as [[= <-] ->].
    apply prog_bind_ok in Hmv as ([] & w1 & Hm & Hmv).
    unfold shutil_move in Hm. destruct (fs_move _ _ (fs w)) as [r s].
    injection Hm as -> <-. apply IH in Hmv as ->. simpl.
    by rewrite <- app_assoc.
Qed.



Lemma names_of_named matches :
  Forall (λ m : string * show, named m.2) matches →
  ∃ names, names_of matches = Ok names ∧
           Forall2 (λ m n, m.2 !! "name" = Some n) matches names.
Proof.
  induction 1 as [|[f r] rest [n Hn] _ (names & Hnames & Hall)]; simpl.
  - exists []. split; [done | constructor].
  - simpl in Hn. rewrite (getitem_Some _ _ _ Hn). simpl. rewrite Hnames. simpl.
    exists (n :: names). split; [done|]. by constructor.
Qed.

End movies.

Section notification.
Context {RE : Regex} {FS : Type} {FSI : FileSystem FS} (env : collaborators).

Lemma send_notification_named matches url (w : world FS) :
  matches ≠ [] →
  Forall (λ m : string * show, named m.2) matches →
  ∃ names,
    Forall2 (λ m n, m.2 !! "name" = Some n) matches names ∧
    send_notification env matches url w =
      (requests_post env url (str_join " and " names),
       World (fs w) (calls w ++ [Post url (str_join " and " names)])).
Proof.
  intros Hne Hall. apply names_of_named in Hall as (names & Hnames & Hall).
  exists names. split; [done|].
  unfold send_notification. destruct matches as [|m rest]; [done|].
  rewrite prog_bind_unfold. unfold lift. by rewrite Hnames.
Qed.

Lemma execute_no_match_no_post self (w w0 : world FS) files ns res w' :
  CopyMedia.input_files self w = (Ok files, w0) →
  match_files files (CopyMedia.series self) = Ok ([], ns) →
  CopyMedia.execute env self w = (res, w') →
  ∃ cs, calls w' = calls w ++ cs ∧ ∀ url v, Post url v ∉ cs.
Proof.
  intros Hin Hm. pose proof (input_files_world _ _ _ _ Hin) as ->.
  unfold CopyMedia.execute. rewrite prog_bind_unfold, Hin. cbv beta iota.
  rewrite prog_bind_unfold. unfold lift at 1. rewrite Hm. cbv beta iota.
  destruct ns as [|g ns]; [|destruct (CopyMedia.moviedir self) as [md|]].
  - intros [= _ <-]. exists []. rewrite app_nil_r.
    split; [done | intros ? ?; apply not_elem_of_nil].
  - rewrite prog_bind_unfold. unfold lift at 1.
    destruct (CopyMedia.movie_files_of env files (CopyMedia.tmdb self)) as [mf|e].
    + intros Hmv. apply move_movies_sources in Hmv as (cs & Hcs & _ & Hp). eauto.
    + intros [= _ <-]. exists []. rewrite app_nil_r.
      split; [done | intros ? ?; apply not_elem_of_nil].
  - intros [= _ <-]. exists []. rewrite app_nil_r.
    split; [done | intros ? ?; apply not_elem_of_nil].
Qed.

(** C6. For a non-empty list of matches the notifier posts one string:
    the names of the matched shows, one per match and in match order,
    joined with " and "; two matches named "Show A" and "Show B" give
    "Show A and Show B"; two files of one show give its name twice. For
    an empty list nothing is posted, and a run without a series match
    posts nothing. *)
Theorem notification_string :
  (∀ matches url (w : world FS),
     matches ≠ [] →
     Forall (λ m : string * show, named m.2) matches →
     ∃ names,
       Forall2 (λ m n, m.2 !! "name" = Some n) matches names ∧
       send_notification env matches url w =
         (requests_post env url (str_join " and " names),
          World (fs w) (calls w ++ [Post url (str_join " and " names)]))) ∧
  (∀ f1 f2 (r1 r2 : show) url (w : world FS),
     r1 !! "name" = Some "Show A" →
     r2 !! "name" = Some "Show B" →
     calls (send_notification env [(f1, r1); (f2, r2)] url w).2 =
       calls w ++ [Post url "Show A and Show B"]) ∧
  (∀ f1 f2 (r : show) n url (w : world FS),
     r !! "name" = Some n →
     calls (send_notification env [(f1, r); (f2, r)] url w).2 =
       calls w ++ [Post url (n +:+ " and " +:+ n)]) ∧
  (∀ url (w : world FS), send_notification env [] url w = (Ok (), w)) ∧
  (∀ self (w w0 : world FS) files ns res w',
     CopyMedia.input_files self w = (Ok files, w0) →
     match_files files (CopyMedia.series self) = Ok ([], ns) →
     CopyMedia.execute env self w = (res, w') →
     ∃ cs, calls w' = calls w ++ cs ∧ ∀ url v, Post url v ∉ cs).
Proof.
  split; [apply send_notification_named|].
  split; [|split; [|split; [done | apply execute_no_match_no_post]]].
  - intros f1 f2 r1 r2 url w Hr1 Hr2.
    unfold send_notification. rewrite prog_bind_unfold. unfold lift, names_of.
    by rewrite (getitem_Some _ _ _ Hr1), (getitem_Some _ _ _ Hr2).
  - intros f1 f2 r n url w Hr.
    unfold send_notification. rewrite prog_bind_unfold. unfold lift, names_of.
    by rewrite (getitem_Some _ _ _ Hr).
Qed.

End notification.

(** ** The engine on its patterns *)

(** A pattern the engine compiles never makes [re.match] raise. *)
Definition patterns_compile (series : list show) : bool :=
  forallb (λ r : show,
             match r !! "regex" with
             | Some p => bool_decide (is_Some (PyRe.compile p))
             | None => true
             end) series.

Lemma patterns_compile_valid series :
  patterns_compile series = true → patterns_valid (RE:=PyRe.engine) series.
Proof.
  unfold patterns_compile. rewrite forallb_forall.
  intros Hall r p f Hin Hp. apply list_elem_of_In in Hin.
  specialize (Hall r Hin). rewrite Hp in Hall.
  apply bool_decide_eq_true in Hall as [[rx g] Hc].
  simpl. unfold PyRe.py_match. rewrite Hc. eauto.
Qed.

(** * Runs on a concrete disk *)

(** Three shows in precedence order: the last pattern matches everything. *)
Definition show_A : show := {[ "name" := "A"; "regex" := "^ShowA.*" ]}.
Definition show_B : show := {[ "name" := "B"; "regex" := "^ShowB.*" ]}.
Definition show_C : show := {[ "name" := "C"; "regex" := ".*" ]}.
Definition series_ABC : list show := [show_A; show_B; show_C].

(** The pattern of the rename example, nine characters: an opening
    parenthesis, a dot, a star, a closing parenthesis, then [\.mkv]. *)
Definition mkv_pattern : string := "(.*" +:+ ")\.mkv".

(** A show that renames, in [re]'s own template syntax. *)
Definition show_renamed : show :=
  {[ "name" := "Show"; "regex" := mkv_pattern; "replace" := "\1.renamed.mkv" ]}.

(** The same show with the replacement written with a dollar sign. *)
Definition show_dollar : show :=
  {[ "name" := "Show"; "regex" := mkv_pattern; "replace" := "$1.renamed.mkv" ]}.

Definition disk : SimpleFS.t :=
  list_to_map
    [("/scan", SimpleFS.Dir);
     ("/scan/ShowB.S02E03.mkv", SimpleFS.File "episode");
     ("/scan/Show.S01E01.mkv", SimpleFS.File "pilot");
     ("/scan/Inception.2010.mkv", SimpleFS.File "film");
     ("/series", SimpleFS.Dir);
     ("/movies", SimpleFS.Dir)].

(** A disk with one film only. *)
Definition film_disk : SimpleFS.t :=
  list_to_map
    [("/scan", SimpleFS.Dir);
     ("/scan/Inception.2010.mkv", SimpleFS.File "film");
     ("/series", SimpleFS.Dir);
     ("/movies", SimpleFS.Dir)].

(** The lookup answers yes for one title; the webhook accepts. *)
Definition stub : collaborators :=
  {| is_movie := λ f _, Ok (String.eqb f "Inception.2010.mkv");
     requests_post := λ _ _, Ok () |}.

(** The lookup is down. *)
Definition lookup_down : collaborators :=
  {| is_movie := λ _ _, Raise (LookupFailure "connection refused");
     requests_post := λ _ _, Ok () |}.

Definition config_ABC : Config.t :=
  {| Config.scanDir := Some "/scan"; Config.seriesDir := Some "/series";
     Config.movieDir := Some "/movies"; Config.series := Some series_ABC |}.

(** Only [show_A]: nothing on [film_disk] matches. *)
Definition config_A : Config.t :=
  {| Config.scanDir := Some "/scan"; Config.seriesDir := Some "/series";
     Config.movieDir := Some "/movies"; Config.series := Some [show_A] |}.


Definition start (d : SimpleFS.t) : world SimpleFS.t := World d [].

(** First match wins: [show_B], not [show_C]. *)
Example first_match_wins_ABC :
  match_files ["ShowB.S02E03.mkv"] (Some series_ABC) =
    Ok ([("ShowB.S02E03.mkv", show_B)], []).
Proof. vm_compute. reflexivity. Qed.

Lemma match_files_first_match_witness :
  CopyMedia.validate_series series_ABC = Ok true ∧
  patterns_valid series_ABC ∧
  ∃ matches nonmatches,
    match_files ["ShowB.S02E03.mkv"; "notes.txt"] (Some series_ABC)
      = Ok (matches, nonmatches) ∧
    matches = omap (λ f, pair f <$> first_rule f series_ABC)
                   ["ShowB.S02E03.mkv"; "notes.txt"] ∧
    nonmatches = filter (λ f, first_rule f series_ABC = None)
                        ["ShowB.S02E03.mkv"; "notes.txt"] ∧
    ∀ f,
      match first_rule f series_ABC with
      | Some r =>
          ∃ i, series_ABC !! i = Some r ∧ pattern_matches f r ∧
               ∀ j r', j < i → series_ABC !! j = Some r' → ¬ pattern_matches f r'
      | None => ∀ r, r ∈ series_ABC → ¬ pattern_matches f r
      end.
Proof.
  split; [vm_compute; reflexivity|].
  split; [apply patterns_compile_valid; vm_compute; reflexivity|].
  apply (match_files_first_match ["ShowB.S02E03.mkv"; "notes.txt"] series_ABC).
  - vm_compute. reflexivity.
  - apply patterns_compile_valid. vm_compute. reflexivity.
Defined.

Lemma move_series_destination_witness :
  ∃ dests w',
    CopyMedia.move_series [("Show.S01E01.mkv", show_renamed)]
      (Some "/series") (Some "/scan") (start disk) = (Ok dests, w') ∧
    ∃ cs moved,
      calls w' = calls (start disk) ++ cs ∧
      moved `prefix_of` [("Show.S01E01.mkv", show_renamed)] ∧
      (is_ok (Ok dests) → moved = [("Show.S01E01.mkv", show_renamed)]) ∧
      Forall2 (λ m c, ∃ sub n,
                 subfolder m.2 sub ∧ new_name m.1 m.2 n ∧
                 c = Move (posixpath.join "/scan" m.1)
                          (posixpath.join (posixpath.join "/series" sub) n))
              moved (filter is_move cs).
Proof.
  eexists _, _. split; [vm_compute; reflexivity|].
  apply (move_series_destination [("Show.S01E01.mkv", show_renamed)]
           "/series" "/scan" (start disk)).
  vm_compute. reflexivity.
Defined.

(** What those moves are on the disk. *)
Example move_series_renamed_calls :
  calls (CopyMedia.move_series [("Show.S01E01.mkv", show_renamed)]
           (Some "/series") (Some "/scan") (start disk)).2 =
    [Makedirs "/series/Show";
     Move "/scan/Show.S01E01.mkv" "/series/Show/Show.S01E01.renamed.mkv"].
Proof. vm_compute. reflexivity. Qed.

(** ** Configuration errors *)



(** ** A move that fails *)



(** ** A lookup that fails *)

(** With the lookup down, the run on a disk with one film raises the
    lookup's exception. *)
Lemma lookup_failure_crashes_the_run :
  CopyMedia.run lookup_down None None None None None None config_A (start film_disk)
    = (Raise (LookupFailure "connection refused"), start film_disk).
Proof. vm_compute. reflexivity. Qed.

Definition media_A : CopyMedia.t :=
  {| CopyMedia.file := None; CopyMedia.configs := Some config_A;
     CopyMedia.ifttt_url := None; CopyMedia.scandir := Some "/scan";
     CopyMedia.seriesdir := Some "/series"; CopyMedia.moviedir := Some "/movies";
     CopyMedia.tmdb := None; CopyMedia.series := Some [show_A] |}.

Lemma lookup_failure_aborts_witness :
  CopyMedia.execute lookup_down media_A (start film_disk)
    = (Raise (LookupFailure "connection refused"), start film_disk).
Proof.
  apply (lookup_failure_aborts lookup_down media_A (start film_disk) (start film_disk)
           ["Inception.2010.mkv"] ["Inception.2010.mkv"] "/movies"
           [] "Inception.2010.mkv" []).
  - vm_compute. reflexivity.
  - vm_compute. reflexivity.
  - discriminate.
  - reflexivity.
  - reflexivity.
  - constructor.
  - reflexivity.
Defined.

(** ** Notification *)

Lemma notification_string_witness :
  ∃ names,
    Forall2 (λ (m : string * show) n, m.2 !! "name" = Some n)
            [("ShowA.S01E01.mkv", show_A); ("ShowB.S02E03.mkv", show_B)] names ∧
    send_notification stub
      [("ShowA.S01E01.mkv", show_A); ("ShowB.S02E03.mkv", show_B)]
      "https://maker.ifttt.com/trigger/PLEX_NEW" (start disk) =
      (requests_post stub "https://maker.ifttt.com/trigger/PLEX_NEW"
         (str_join " and " names),
       World (fs (start disk))
         (calls (start disk)
            ++ [Post "https://maker.ifttt.com/trigger/PLEX_NEW"
                     (str_join " and " names)])).
Proof.
  apply (proj1 (notification_string (RE:=PyRe.engine) stub)).
  - discriminate.
  - repeat constructor; vm_compute; eauto.
Defined.

Example notification_A_and_B :
  calls (send_notification stub
           [("ShowA.S01E01.mkv", show_A); ("ShowB.S02E03.mkv", show_B)]
           "hook" (start disk)).2 = [Post "hook" "A and B"].
Proof. vm_compute. reflexivity. Qed.

(** ** Movies *)

(** C7. [move_movies] moves every file [f] from [join(start_dir, f)] to
    [join(move_dir, f)]: for a bare file name that is [move_dir], a slash
    if it has none at its end, and [f] itself, so the last component of
    the destination is the original name and no folder is added. On a
    disk with "Inception.2010.mkv" in the scan directory, no series match
    and a lookup that says yes, the run leaves the file, unchanged, at
    "/movies/Inception.2010.mkv". *)
Theorem movies_flat :
  (∀ (FS : Type) (FSI : FileSystem FS) files md sd (w w' : world FS),
     CopyMedia.move_movies files (Some md) (Some sd) w = (Ok (), w') →
     Forall (λ f, has_sep f = false) files →
     calls w' =
       calls w ++ ((λ f, Move (posixpath.join sd f) (dir_prefix md +:+ f)) <$> files) ∧
     ∀ f, f ∈ files → (posixpath.split (dir_prefix md +:+ f)).2 = f) ∧
  (let out := CopyMedia.run stub None None None None None None config_A
                (start film_disk) in
   out.1 = Ok () ∧
   fs out.2 !! "/movies/Inception.2010.mkv" = Some (SimpleFS.File "film") ∧
   fs out.2 !! "/scan/Inception.2010.mkv" = None ∧
   calls out.2 = [Move "/scan/Inception.2010.mkv" "/movies/Inception.2010.mkv"]).
Proof.
  split.
  - intros FS FSI files md sd w w' Hmv Hbare.
    apply move_movies_ok in Hmv as ->. split.
    + f_equal. apply list_fmap_ext. intros i f Hf.
      apply list_elem_of_lookup_2 in Hf.
      rewrite Forall_forall in Hbare. by rewrite (join_bare md f (Hbare f Hf)).
    + intros f Hf. rewrite Forall_forall in Hbare.
      rewrite <- (join_bare md f (Hbare f Hf)). by apply basename_join, Hbare.
  - vm_compute. repeat split; reflexivity.
Qed.

Lemma movies_flat_witness :
  ∃ w',
    CopyMedia.move_movies ["Inception.2010.mkv"] (Some "/movies") (Some "/scan")
      (start film_disk) = (Ok (), w') ∧
    Forall (λ f, has_sep f = false) ["Inception.2010.mkv"] ∧
    calls w' =
      calls (start film_disk)
        ++ ((λ f, Move (posixpath.join "/scan" f) (dir_prefix "/movies" +:+ f))
              <$> ["Inception.2010.mkv"]) ∧
    ∀ f, f ∈ ["Inception.2010.mkv"] →
         (posixpath.split (dir_prefix "/movies" +:+ f)).2 = f.
Proof.
  eexists. split; [vm_compute; reflexivity|].
  split; [repeat constructor|].
  eapply (proj1 movies_flat SimpleFS.t SimpleFS.filesystem
            ["Inception.2010.mkv"] "/movies" "/scan" (start film_disk)).
  - vm_compute. reflexivity.
  - repeat constructor.
Defined.

(** ** Renaming *)

(** With the replacement "$1.renamed.mkv" the destination name is the
    replacement itself: a dollar sign is an ordinary character of a
    template. *)
Lemma dollar_replacement_is_literal :
  CopyMedia.dest_file_name "Show.S01E01.mkv" show_dollar = Ok "$1.renamed.mkv" ∧
  CopyMedia.dest_file_name "Show.S01E01.mkv" show_dollar
    ≠ Ok "Show.S01E01.renamed.mkv".
Proof. split; [vm_compute; reflexivity | vm_compute; discriminate]. Qed.

(** C8, as the program has it. For a show whose pattern captures what
    precedes the extension [.mkv] in a group, and whose replacement refers
    to that group the way [re] writes it, a backslash and the digit 1,
    followed by [.renamed.mkv], the file "Show.S01E01.mkv" gets the
    destination name "Show.S01E01.renamed.mkv". *)
Theorem rename_with_group_reference (r : show) :
  r !! "regex" = Some mkv_pattern →
  r !! "replace" = Some "\1.renamed.mkv" →
  CopyMedia.dest_file_name "Show.S01E01.mkv" r = Ok "Show.S01E01.renamed.mkv".
Proof.
  intros Hregex Hreplace. unfold CopyMedia.dest_file_name, contains.
  rewrite Hreplace, (getitem_Some _ _ _ Hregex), (getitem_Some _ _ _ Hreplace).
  vm_compute. reflexivity.
Qed.

Lemma rename_with_group_reference_witness :
  show_renamed !! "regex" = Some mkv_pattern ∧
  show_renamed !! "replace" = Some "\1.renamed.mkv" ∧
  CopyMedia.dest_file_name "Show.S01E01.mkv" show_renamed
    = Ok "Show.S01E01.renamed.mkv".
Proof.
  split; [vm_compute; reflexivity|]. split; [vm_compute; reflexivity|].
  apply (rename_with_group_reference show_renamed); vm_compute; reflexivity.
Defined.

(** ** The destination directory *)

Lemma ensure_dir_idempotent_witness :
  ∃ w1 : world SimpleFS.t,
    CopyMedia.ensure_dir "/series/B" (start disk) = (Ok (), w1) ∧
    calls w1 = [Makedirs "/series/B"] ∧
    CopyMedia.ensure_dir "/series/B" w1 = (Ok (), w1).
Proof.
  eexists. split; [vm_compute; reflexivity|]. split; [reflexivity|].
  apply (ensure_dir_idempotent "/series/B" (start disk)).
  vm_compute. reflexivity.
Defined.

(** ** An explicit file *)

(** The call of a download client: id, name, path; the scan directory
    comes with [--scan]. *)
Definition deluge_args : Args.t :=
  {| Args.file := None; Args.dest := None; Args.moviedest := None;
     Args.scan := Some "/scan"; Args.ifttt := None; Args.tmdb := None;
     Args.delugeArgs := ["7f3a"; "ShowB.S02E03.mkv"; "/downloads/done"] |}.

Lemma explicit_file_source_witness :
  explicit_file deluge_args = Some "/downloads/done/ShowB.S02E03.mkv" ∧
  (∀ c, CopyMedia.init (trigger_url "https://maker.ifttt.com" deluge_args)
          (Args.scan deluge_args) (Args.dest deluge_args)
          (Some "/downloads/done/ShowB.S02E03.mkv") (Args.tmdb deluge_args)
          (Args.moviedest deluge_args) config_ABC = Ok c →
        CopyMedia.input_files c (start disk)
          = (Ok [(posixpath.split "/downloads/done/ShowB.S02E03.mkv").2], start disk)) ∧
  ∃ cs,
    calls (main stub "https://maker.ifttt.com" deluge_args config_ABC (start disk)).2
      = calls (start disk) ++ cs ∧
    ∀ src dst, Move src dst ∈ cs →
      ∃ sd, Args.scan deluge_args = Some sd ∧
            src = posixpath.join sd
                    (posixpath.split "/downloads/done/ShowB.S02E03.mkv").2.
Proof.
  split; [vm_compute; reflexivity|].
  apply (explicit_file_source stub "https://maker.ifttt.com" deluge_args config_ABC
           "/downloads/done/ShowB.S02E03.mkv" (start disk)
           (main stub "https://maker.ifttt.com" deluge_args config_ABC (start disk)).1).
  - vm_compute. reflexivity.
  - discriminate.
  - by destruct (main stub "https://maker.ifttt.com" deluge_args config_ABC (start disk)).
Defined.

(** The move of that run: from the scan directory, not from the directory
    of the given path. *)
Example explicit_file_moves_from_scandir :
  calls (main stub "https://maker.ifttt.com" deluge_args config_ABC (start disk)).2 =
    [Makedirs "/series/B"; Move "/scan/ShowB.S02E03.mkv" "/series/B/ShowB.S02E03.mkv"].
Proof. vm_compute. reflexivity. Qed.

(** Without a scan directory an explicit file is not moved at all. *)
Example explicit_file_without_scandir :
  CopyMedia.run stub None None None (Some "/scan/ShowB.S02E03.mkv") None None
    config_ABC (start disk)
  = (Raise (TypeError "expected str, bytes or os.PathLike object, not NoneType"),
     World (<["/series/B" := SimpleFS.Dir]> disk) [Makedirs "/series/B"]).
Proof. vm_compute. reflexivity. Qed.

Example mkv_pattern_chars :
  list_ascii_of_string mkv_pattern =
    ["("; "."; "*"; ")"; "\"; "."; "m"; "k"; "v"]%char.
Proof. reflexivity. Qed.

(** ** Templates without a backslash *)

(** A replacement with no backslash is a sequence of literal characters,
    whatever else it contains: no group is ever substituted into it. *)
Lemma template_without_backslash t groups :
  Forall (λ c, c ≠ "\"%char) t →
  PyRe.parse_template (S (List.length t)) t groups = Some (PyRe.Lit <$> t).
Proof.
  induction 1 as [|c t Hc _ IH]; [done|].
  cbn [List.length]. remember (S (List.length t)) as fuel eqn:Hfuel.
  cbn [PyRe.parse_template].
  destruct (Ascii.eqb_spec c "\"%char) as [->|_]; [done|].
  assert (∀ (X : Type) (a b : X),
            match c with
            | "\"%char => a
            | _ => b
            end = b) as Hother.
  { intros X a b.
    destruct c as [[] [] [] [] [] [] [] []]; try reflexivity. by destruct Hc. }
  rewrite Hfuel in *. rewrite IH. simpl.
  destruct c as [[] [] [] [] [] [] [] []]; try reflexivity. by destruct Hc.
Qed.

Lemma expand_literals t whole caps : PyRe.expand (PyRe.Lit <$> t) whole caps = t.
Proof. induction t as [|c t IH]; simpl; [done | by f_equal]. Qed.

(** [re.match] looks at the start of the name only. *)
Example match_is_anchored :
  re_match "ShowB" "ShowB.S02E03.mkv" = Ok true ∧
  re_match "ShowB" "Old.ShowB.S02E03.mkv" = Ok false.
Proof. vm_compute. split; reflexivity. Qed.

(** * More of the program *)

(** ** Validation and loading *)

Lemma validate_series_not_false (series : list show) :
  CopyMedia.validate_series series ≠ Ok false.
Proof.
  induction series as [|r rest IH]; simpl; [done|].
  unfold contains, getitem.
  destruct (r !! "name"); simpl; [|done].
  destruct (r !! "regex"); simpl; done.
Qed.

(** [validate_series] returns [True] exactly when every show has a name
    and a pattern; otherwise it raises [KeyError] for the first show that
    lacks one, ['name'] if the name is missing and ['regex'] if only the
    pattern is. It never returns [False]. *)
Theorem validate_series_outcome (series : list show) :
  (CopyMedia.validate_series series = Ok true ↔
     Forall (λ r, named r ∧ has_pattern r) series) ∧
  CopyMedia.validate_series series ≠ Ok false ∧
  ∀ good bad rest,
    series = good ++ bad :: rest →
    Forall (λ r, named r ∧ has_pattern r) good →
    (bad !! "name" = None →
       CopyMedia.validate_series series = Raise (KeyError "name")) ∧
    (named bad → bad !! "regex" = None →
       CopyMedia.validate_series series = Raise (KeyError "regex")).
Proof.
  split; [apply validate_series_Forall|].
  split; [apply validate_series_not_false|].
  - intros good bad rest -> Hgood.
    induction Hgood as [|r good [[n Hn] [p Hp]] _ IH]; simpl.
    + unfold contains, getitem. split.
      * by intros ->.
      * intros [n Hn] Hp. by rewrite Hn, Hp.
    + unfold contains, getitem. rewrite Hn, Hp. simpl. apply IH.
Qed.

Lemma validate_series_outcome_witness :
  CopyMedia.validate_series [show_A; {[ "name" := "B" ]}; {[ "regex" := ".*" ]}]
    = Raise (KeyError "regex").
Proof.
  apply (proj2 (proj2 (validate_series_outcome
                         [show_A; {[ "name" := "B" ]}; {[ "regex" := ".*" ]}]))
           [show_A] {[ "name" := "B" ]} [{[ "regex" := ".*" ]}]).
  - reflexivity.
  - repeat constructor; vm_compute; eauto.
  - vm_compute. eauto.
  - vm_compute. reflexivity.
Defined.

(** The directory a run uses: the command line first, the configuration
    when the command line has none. *)
Definition resolved (cli cfg : option string) : option string :=
  match cli with
  | Some d => Some d
  | None => cfg
  end.

(** A [CopyMedia] object that [__init__] has built has a series root and a
    movie root, and a file or a scan directory; the command line wins over
    the configuration file for the three directories, the scan directory
    of the configuration is not read when a file is given, and the shows
    have passed validation. *)
Theorem init_resolved iu sd srd f t md config c :
  CopyMedia.init iu sd srd f t md config = Ok c →
  CopyMedia.file c = f ∧ CopyMedia.ifttt_url c = iu ∧ CopyMedia.tmdb c = t ∧
  CopyMedia.seriesdir c = resolved srd (Config.seriesDir config) ∧
  CopyMedia.moviedir c = resolved md (Config.movieDir config) ∧
  CopyMedia.scandir c =
    (if truthy f then sd else resolved sd (Config.scanDir config)) ∧
  truthy (CopyMedia.seriesdir c) = true ∧
  truthy (CopyMedia.moviedir c) = true ∧
  truthy (CopyMedia.file c) || truthy (CopyMedia.scandir c) = true ∧
  CopyMedia.series c = Config.series config ∧
  ∀ rules, CopyMedia.series c = Some rules →
           Forall (λ r, named r ∧ has_pattern r) rules.
Proof.
  unfold CopyMedia.init, CopyMedia.process_configs, resolved.
  cbn [CopyMedia.file CopyMedia.scandir CopyMedia.seriesdir CopyMedia.moviedir
       CopyMedia.ifttt_url CopyMedia.tmdb CopyMedia.series CopyMedia.configs].
  set (scan := if truthy f then sd else _).
  set (sdir := match srd with Some _ => _ | None => _ end).
  set (mdir := match md with Some _ => _ | None => _ end).
  assert (scan = if truthy f then sd
                 else match sd with Some d => Some d | None => Config.scanDir config end)
    as Hscan.
  { subst scan. destruct (truthy f); [done|]. by destruct sd, (Config.scanDir config). }
  assert (sdir = match srd with Some d => Some d | None => Config.seriesDir config end)
    as Hsdir by (subst sdir; by destruct srd, (Config.seriesDir config)).
  assert (mdir = match md with Some d => Some d | None => Config.movieDir config end)
    as Hmdir by (subst mdir; by destruct md, (Config.movieDir config)).
  clearbody scan sdir mdir.
  destruct (negb (truthy f) && negb (truthy scan)) eqn:H1; [discriminate|].
  destruct (negb (truthy sdir)) eqn:H2; [discriminate|].
  destruct (negb (truthy mdir)) eqn:H3; [discriminate|].
  apply negb_false_iff in H2, H3.
  assert (truthy f || truthy scan = true) as H1'.
  { destruct (truthy f), (truthy scan); done. }
  destruct (Config.series config) as [rules|] eqn:Hrules.
  - intros Hv. apply result_bind_ok in Hv as ([] & Hv & [= <-]); simpl.
    + repeat split; try done. intros rules' [= <-]. by apply validate_series_Forall.
    + by destruct (validate_series_not_false rules).
  - intros [= <-]. simpl. repeat split; try done.
Qed.

Definition media_incoming : CopyMedia.t :=
  {| CopyMedia.file := None; CopyMedia.configs := Some config_ABC;
     CopyMedia.ifttt_url := None; CopyMedia.scandir := Some "/incoming";
     CopyMedia.seriesdir := Some "/series"; CopyMedia.moviedir := Some "/movies";
     CopyMedia.tmdb := None; CopyMedia.series := Some series_ABC |}.

Lemma init_resolved_witness :
  CopyMedia.init None (Some "/incoming") None None None None config_ABC
    = Ok media_incoming ∧
  CopyMedia.scandir media_incoming
    = (if truthy None then Some "/incoming"
       else resolved (Some "/incoming") (Config.scanDir config_ABC)) ∧
  CopyMedia.seriesdir media_incoming = resolved None (Config.seriesDir config_ABC).
Proof.
  split; [vm_compute; reflexivity|].
  destruct (init_resolved None (Some "/incoming") None None None None config_ABC
              media_incoming) as (_ & _ & _ & Hs & _ & Hscan & _).
  - vm_compute. reflexivity.
  - by split.
Defined.

Lemma validate_series_error (series : list show) e :
  CopyMedia.validate_series series = Raise e →
  e = KeyError "name" ∨ e = KeyError "regex".
Proof.
  induction series as [|r rest IH]; simpl; [done|].
  unfold contains, getitem.
  destruct (r !! "name"); simpl; [|intros [= <-]; by left].
  destruct (r !! "regex"); simpl; [done | intros [= <-]; by right].
Qed.

(** Loading raises [ConfigurationError] in three cases only, checked in
    this order: neither a file nor a scan directory; no series root; no
    movie root. An empty string counts as missing, and a scan directory in
    the configuration does not count when the command line gives an empty
    one. *)
Theorem init_configuration_error iu sd srd f t md config msg :
  CopyMedia.init iu sd srd f t md config = Raise (ConfigurationError msg) ↔
  let scan := if truthy f then sd else resolved sd (Config.scanDir config) in
  let series_root := resolved srd (Config.seriesDir config) in
  let movie_root := resolved md (Config.movieDir config) in
  (msg = "Missing directory to scan." ∧ truthy f || truthy scan = false) ∨
  (msg = "Missing destination series directory" ∧
     truthy f || truthy scan = true ∧ truthy series_root = false) ∨
  (msg = "Missing destination movie directory" ∧
     truthy f || truthy scan = true ∧ truthy series_root = true ∧
     truthy movie_root = false).
Proof.
  unfold CopyMedia.init, CopyMedia.process_configs, resolved.
  cbn [CopyMedia.file CopyMedia.scandir CopyMedia.seriesdir CopyMedia.moviedir
       CopyMedia.ifttt_url CopyMedia.tmdb CopyMedia.series CopyMedia.configs].
  cbv zeta.
  assert (∀ b : option string,
            match b with Some d => Some d | None => None end = b) as Hres.
  { by intros []. }
  rewrite !Hres.
  destruct (truthy f) eqn:Hf; cbn [negb andb orb].
  - destruct (truthy (match srd with Some d => Some d | None => _ end)) eqn:Hs;
      cbn [negb].
    + destruct (truthy (match md with Some d => Some d | None => _ end)) eqn:Hm;
        cbn [negb].
      * split; [|naive_solver].
        destruct (Config.series config) as [rules|]; [|done].
        intros Hv. destruct (CopyMedia.validate_series rules) as [b|e] eqn:He; [done|].
        apply validate_series_error in He. simpl in Hv. naive_solver.
      * split; [intros [= <-]; naive_solver | naive_solver].
    + split; [intros [= <-]; naive_solver | naive_solver].
  - destruct (truthy (match sd with Some d => Some d | None => _ end)) eqn:Hsc;
      cbn [negb].
    + destruct (truthy (match srd with Some d => Some d | None => _ end)) eqn:Hs;
        cbn [negb].
      * destruct (truthy (match md with Some d => Some d | None => _ end)) eqn:Hm;
          cbn [negb].
        -- split; [|naive_solver].
           destruct (Config.series config) as [rules|]; [|done].
           intros Hv. destruct (CopyMedia.validate_series rules) as [b|e] eqn:He; [done|].
           apply validate_series_error in He. simpl in Hv. naive_solver.
        -- split; [intros [= <-]; naive_solver | naive_solver].
      * split; [intros [= <-]; naive_solver | naive_solver].
    + split; [intros [= <-]; naive_solver | naive_solver].
Qed.

(** A scan directory in the configuration does not help an empty
    [--scan]. *)
Lemma init_configuration_error_witness :
  CopyMedia.init None (Some "") None None None None config_ABC
    = Raise (ConfigurationError "Missing directory to scan.").
Proof.
  apply (proj2 (init_configuration_error None (Some "") None None None None
                  config_ABC "Missing directory to scan.")).
  left. split; vm_compute; reflexivity.
Defined.

(** ** The classifier on any rules *)

Lemma sublist_same_length {A} (l1 l2 : list A) :
  sublist l1 l2 → List.length l1 = List.length l2 → l1 = l2.
Proof.
  induction 1 as [|x l1 l2 _ IH|x l1 l2 Hs _]; simpl; intros Hlen.
  - done.
  - f_equal. apply IH. lia.
  - apply sublist_length in Hs. lia.
Qed.

Section classifier_more.
Context {RE : Regex}.

(** The pattern of [r] is tried on [f] and does not match. *)
Definition pattern_rejects (f : string) (r : show) : Prop :=
  ∃ p, r !! "regex" = Some p ∧ re_match p f = Ok false.

Lemma match_file_sound f series o :
  match_file f series = Ok o →
  match o with
  | Some r => r ∈ series ∧ pattern_matches f r
  | None => Forall (pattern_rejects f) series
  end.
Proof.
  revert o. induction series as [|r rest IH]; intros o; simpl.
  - intros [= <-]. constructor.
  - unfold getitem.
    destruct (r !! "name") as [n|]; simpl; [|done].
    destruct (r !! "regex") as [p|] eqn:Hp; simpl; [|done].
    destruct (re_match p f) as [[]|e] eqn:Hm; simpl; [| |done].
    + intros [= <-]. split; [left|]. by exists p.
    + intros Hrest. specialize (IH _ Hrest). destruct o as [r'|].
      * destruct IH as [Hin Hpm]. split; [by right | done].
      * constructor; [by exists p | done].
Qed.

Lemma match_files_loop_partition files rules ms0 ns0 ms ns :
  match_files_loop files (Some rules) ms0 ns0 = Ok (ms, ns) →
  ∃ ms1 ns1,
    ms = ms0 ++ ms1 ∧ ns = ns0 ++ ns1 ∧
    ms1.*1 ++ ns1 ≡ₚ files ∧ sublist ms1.*1 files ∧ sublist ns1 files ∧
    Forall (λ m, m.2 ∈ rules ∧ pattern_matches m.1 m.2) ms1 ∧
    Forall (λ f, Forall (pattern_rejects f) rules) ns1.
Proof.
  revert ms0 ns0. induction files as [|f files IH]; intros ms0 ns0; simpl.
  - intros [= <- <-]. exists [], []. rewrite !app_nil_r.
    repeat split; try done; constructor.
  - intros Hloop. apply result_bind_ok in Hloop as (o & Ho & Hloop).
    apply match_file_sound in Ho. destruct o as [r|].
    + apply IH in Hloop as (ms1 & ns1 & -> & -> & Hperm & Hsm & Hsn & Hm & Hn).
      exists ((f, r) :: ms1), ns1. rewrite <- app_assoc.
      repeat split; try done.
      * simpl. by constructor.
      * simpl. by apply sublist_skip.
      * by apply sublist_cons.
      * by constructor.
    + apply IH in Hloop as (ms1 & ns1 & -> & -> & Hperm & Hsm & Hsn & Hm & Hn).
      exists ms1, (f :: ns1). rewrite <- app_assoc.
      repeat split; try done.
      * rewrite <- Permutation_middle. by constructor.
      * by apply sublist_cons.
      * by apply sublist_skip.
      * by constructor.
Qed.

(** Whenever [match_files] returns, whatever the rules, its two lists
    split the input: together they are the input files, each list in input
    order; every match pairs a file with a configured show whose pattern
    matched it, and no pattern matched a nonmatch. In particular, when
    nothing matches, the nonmatches are all the files. *)
Theorem match_files_partition files series ms ns :
  match_files files series = Ok (ms, ns) →
  ms.*1 ++ ns ≡ₚ files ∧ sublist ms.*1 files ∧ sublist ns files ∧
  (∀ f r, (f, r) ∈ ms →
     ∃ rules, series = Some rules ∧ r ∈ rules ∧ pattern_matches f r) ∧
  (∀ f rules r, f ∈ ns → series = Some rules → r ∈ rules → pattern_rejects f r) ∧
  (ms = [] → ns = files).
Proof.
  unfold match_files. destruct series as [rules|].
  - intros Hloop.
    apply match_files_loop_partition in Hloop
      as (ms1 & ns1 & -> & -> & Hperm & Hsm & Hsn & Hm & Hn).
    simpl. repeat split; try done.
    + intros f r Hin. exists rules. rewrite Forall_forall in Hm.
      destruct (Hm _ Hin) as [? ?]. done.
    + intros f rules' r Hin [= <-] Hr. rewrite Forall_forall in Hn.
      specialize (Hn _ Hin). rewrite Forall_forall in Hn. by apply Hn.
    + intros ->. simpl in *. apply Permutation_length in Hperm.
      by apply sublist_same_length.
  - destruct files as [|f files]; simpl; [|done].
    intros [= <- <-]. repeat split; try done.
    intros f r Hin. by apply elem_of_nil in Hin.
Qed.

End classifier_more.

Lemma match_files_partition_witness :
  [("ShowB.S02E03.mkv", show_B)].*1 ++ ["Inception.2010.mkv"]
    ≡ₚ ["ShowB.S02E03.mkv"; "Inception.2010.mkv"].
Proof.
  apply (match_files_partition ["ShowB.S02E03.mkv"; "Inception.2010.mkv"]
           (Some [show_A; show_B]) [("ShowB.S02E03.mkv", show_B)]
           ["Inception.2010.mkv"]).
  vm_compute. reflexivity.
Defined.

(** ** Runs *)

Section runs_more.
Context {RE : Regex} {FS : Type} {FSI : FileSystem FS}.

(** A configuration without the key [series] loads, with a warning only;
    the run then ends at once when there is no file, and raises
    [TypeError] without touching anything as soon as there is one. *)
Theorem run_without_series env iu sd srd f t md config c (w w0 : world FS) files :
  Config.series config = None →
  CopyMedia.init iu sd srd f t md config = Ok c →
  CopyMedia.input_files c w = (Ok files, w0) →
  CopyMedia.execute env c w =
    (match files with
     | [] => Ok ()
     | _ :: _ => Raise (TypeError "'NoneType' object is not iterable")
     end, w).
Proof.
  intros Hnone Hinit Hin.
  destruct (init_resolved _ _ _ _ _ _ _ _ Hinit) as (_&_&_&_&_&_&_&_&_& Hs &_).
  rewrite Hnone in Hs.
  pose proof (input_files_world _ _ _ _ Hin) as ->.
  unfold CopyMedia.execute. rewrite prog_bind_unfold, Hin. cbv beta iota.
  rewrite prog_bind_unfold. unfold lift at 1. rewrite Hs.
  by destruct files.
Qed.

Lemma scan_files_filter sd names (w : world FS) :
  CopyMedia.scan_files (Some sd) names w =
    (Ok (filter (λ f, fs_isfile (posixpath.join sd f) (fs w) = true) names), w).
Proof.
  induction names as [|f rest IH]; [done|].
  cbn [CopyMedia.scan_files]. rewrite prog_bind_unfold. unfold lift at 1. simpl.
  rewrite prog_bind_unfold. unfold isfile at 1. rewrite prog_bind_unfold, IH.
  rewrite filter_cons. simpl.
  destruct (fs_isfile (posixpath.join sd f) (fs w)) eqn:Hf.
  - by rewrite decide_True.
  - by rewrite decide_False.
Qed.

(** Without a file, the files of a run are the entries of the scan
    directory that are regular files, in the order [os.listdir] gives
    them; directories are left out, and reading changes nothing. When the
    directory cannot be listed the run ends with that error. *)
Theorem input_files_scan self sd (w : world FS) :
  truthy (CopyMedia.file self) = false →
  CopyMedia.scandir self = Some sd →
  CopyMedia.input_files self w =
    (match fs_listdir sd (fs w) with
     | Ok names =>
         Ok (filter (λ f, fs_isfile (posixpath.join sd f) (fs w) = true) names)
     | Raise e => Raise e
     end, w).
Proof.
  intros Hf Hsd. unfold CopyMedia.input_files. rewrite Hf, Hsd.
  rewrite prog_bind_unfold. unfold listdir. simpl.
  destruct (fs_listdir sd (fs w)) as [names|e]; [|done].
  apply scan_files_filter.
Qed.

Lemma send_notification_env env1 env2 matches url (w : world FS) :
  requests_post env1 = requests_post env2 →
  send_notification env1 matches url w = send_notification env2 matches url w.
Proof.
  intros Hp. unfold send_notification. destruct matches as [|m rest]; [done|].
  rewrite !prog_bind_unfold. unfold lift.
  destruct (names_of (m :: rest)); [|done]. unfold post. by rewrite Hp.
Qed.

Lemma execute_with_matches env self (w w0 : world FS) files m ms ns :
  CopyMedia.input_files self w = (Ok files, w0) →
  match_files files (CopyMedia.series self) = Ok (m :: ms, ns) →
  CopyMedia.execute env self w =
    match CopyMedia.move_series (m :: ms) (CopyMedia.seriesdir self)
            (CopyMedia.scandir self) w with
    | (Ok _, w1) =>
        match CopyMedia.ifttt_url self with
        | Some url => send_notification env (m :: ms) url w1
        | None => (Ok (), w1)
        end
    | (Raise e, w1) => (Raise e, w1)
    end.
Proof.
  intros Hin Hm. pose proof (input_files_world _ _ _ _ Hin) as ->.
  unfold CopyMedia.execute. rewrite prog_bind_unfold, Hin. cbv beta iota.
  rewrite prog_bind_unfold. unfold lift at 1. rewrite Hm. cbv beta iota.
  rewrite prog_bind_unfold.
  destruct (CopyMedia.move_series (m :: ms) _ _ w) as [[D|e] w1]; [|done].
  by destruct (CopyMedia.ifttt_url self).
Qed.

(** As soon as one file of the run matches a series, the movie lookup is
    not consulted at all: the run is the same whatever [is_movie] would
    answer, and every move it issues reads a matched file. The files that
    matched no series are left where they are. *)
Theorem series_match_skips_movies env1 env2 self (w w0 : world FS) files m ms ns :
  CopyMedia.input_files self w = (Ok files, w0) →
  match_files files (CopyMedia.series self) = Ok (m :: ms, ns) →
  requests_post env1 = requests_post env2 →
  CopyMedia.execute env1 self w = CopyMedia.execute env2 self w ∧
  ∃ cs,
    calls (CopyMedia.execute env1 self w).2 = calls w ++ cs ∧
    sourced_from (CopyMedia.scandir self) (m :: ms).*1 cs.
Proof.
  intros Hin Hm Hp.
  rewrite (execute_with_matches env1 _ _ _ _ _ _ _ Hin Hm).
  rewrite (execute_with_matches env2 _ _ _ _ _ _ _ Hin Hm).
  destruct (CopyMedia.move_series (m :: ms) _ _ w) as [rs w1] eqn:Hmv.
  apply move_series_loop_sources in Hmv as (cs1 & Hc1 & Hs1 & _).
  destruct rs as [D|e]; [|split; [done | by exists cs1]].
  destruct (CopyMedia.ifttt_url self) as [url|]; [|split; [done | by exists cs1]].
  split; [by apply send_notification_env|].
  destruct (send_notification env1 (m :: ms) url w1) as [rn w2] eqn:Hn.
  apply send_notification_calls in Hn as (cs2 & Hc2 & Hnm). simpl.
  exists (cs1 ++ cs2). split; [by rewrite Hc2, Hc1, app_assoc|].
  intros src dst Hc. apply elem_of_app in Hc as [Hc|Hc]; [by apply Hs1 in Hc|].
  by apply Hnm in Hc.
Qed.

Lemma move_series_step_dest md sd f r (w : world FS) dest w' :
  CopyMedia.move_series_step (Some md) sd (f, r) w = (Ok dest, w') →
  ∃ sub, subfolder r sub ∧ dest = posixpath.join md sub.
Proof.
  unfold CopyMedia.move_series_step. intros Hstep.
  apply prog_bind_ok in Hstep as (n & w1 & _ & Hstep).
  apply prog_bind_ok in Hstep as (d & w2 & Hd & Hstep).
  apply lift_ok in Hd as [Hd ->].
  apply prog_bind_ok in Hstep as ([] & w3 & _ & Hstep).
  apply prog_bind_ok in Hstep as (src & w4 & _ & Hstep).
  apply prog_bind_ok in Hstep as ([] & w5 & _ & [= <- _]).
  by apply dest_dir_ok.
Qed.

Lemma move_series_loop_destinations matches md sd D (w : world FS) dests w' :
  CopyMedia.move_series_loop matches (Some md) sd D w = (Ok dests, w') →
  ∀ d, d ∈ dests ↔
       d ∈ D ∨ ∃ m sub, m ∈ matches ∧ subfolder m.2 sub ∧ d = posixpath.join md sub.
Proof.
  revert D w. induction matches as [|[f r] rest IH]; intros D w.
  - intros [= <- _] d. split; [by left|]. intros [?|(m & sub & Hin & _)]; [done|].
    by apply elem_of_nil in Hin.
  - cbn [CopyMedia.move_series_loop]. intros Hloop.
    apply prog_bind_ok in Hloop as (dest & w1 & Hstep & Hloop).
    apply move_series_step_dest in Hstep as (sub & Hsub & ->).
    intros d. rewrite (IH _ _ Hloop d). split.
    + intros [Hd | (m & sub' & Hin & Hsub' & ->)].
      * apply elem_of_union in Hd as [Hd|Hd]; [|by left].
        apply elem_of_singleton in Hd as ->. right.
        exists (f, r), sub. split; [left|done].
      * right. exists m, sub'. split; [by right | done].
    + intros [Hd | (m & sub' & Hin & Hsub' & ->)].
      * left. set_solver.
      * apply elem_of_cons in Hin as [-> | Hin].
        -- left. simpl in Hsub'.
           assert (sub' = sub) as ->.
           { destruct Hsub as [?|[? ?]], Hsub' as [?|[? ?]]; congruence. }
           set_solver.
        -- right. exists m, sub'. done.
Qed.

(** The set [move_series] returns when it completes is the set of
    destination directories of its matches: [move_dir] joined with the
    show's [destination], or with its [name] when it has none. *)
Theorem move_series_destinations matches md sd (w : world FS) dests w' :
  CopyMedia.move_series matches (Some md) sd w = (Ok dests, w') →
  ∀ d, d ∈ dests ↔
       ∃ m sub, m ∈ matches ∧ subfolder m.2 sub ∧ d = posixpath.join md sub.
Proof.
  intros Hmv d. rewrite (move_series_loop_destinations _ _ _ _ _ _ _ Hmv d).
  split; [intros [Hd|?]; [set_solver | done] | by right].
Qed.

(** [move_movies] issues moves only, one per file and in order, each from
    [join(start_dir, f)] to [join(move_dir, f)], up to the first move that
    fails: it creates no directory, so the movie root must exist already,
    and after a failure the remaining files are not tried. *)
Theorem move_movies_calls files md sd (w : world FS) res w' :
  CopyMedia.move_movies files (Some md) (Some sd) w = (res, w') →
  ∃ k : nat,
    (k ≤ List.length files)%nat ∧
    calls w' =
      calls w ++ ((λ f, Move (posixpath.join sd f) (posixpath.join md f))
                    <$> take k files) ∧
    (is_ok res → k = List.length files) ∧
    (is_ok res = false → (0 < k)%nat).
Proof.
  revert w. induction files as [|f rest IH]; intros w.
  - intros [= <- <-]. exists 0. simpl. rewrite app_nil_r. repeat split; try done.
  - cbn [CopyMedia.move_movies]. rewrite !prog_bind_unfold. unfold lift at 1. simpl.
    rewrite !prog_bind_unfold. unfold lift at 1. simpl.
    rewrite !prog_bind_unfold. unfold shutil_move.
    destruct (fs_move _ _ (fs w)) as [[[]|e] s].
    + intros Hrest. apply IH in Hrest as (k & Hk & Hc & Hok & Hfail).
      exists (S k). simpl in *. rewrite Hc, <- app_assoc.
      repeat split; try done; try lia. intros Hr. by rewrite Hok.
    + intros [= <- <-]. exists 1. simpl. rewrite ?take_0.
      repeat split; try done; lia.
Qed.

End runs_more.

Definition config_no_series : Config.t :=
  {| Config.scanDir := Some "/scan"; Config.seriesDir := Some "/series";
     Config.movieDir := Some "/movies"; Config.series := None |}.

Definition media_no_series : CopyMedia.t :=
  {| CopyMedia.file := None; CopyMedia.configs := Some config_no_series;
     CopyMedia.ifttt_url := None; CopyMedia.scandir := Some "/scan";
     CopyMedia.seriesdir := Some "/series"; CopyMedia.moviedir := Some "/movies";
     CopyMedia.tmdb := None; CopyMedia.series := None |}.

Lemma run_without_series_witness :
  CopyMedia.execute stub media_no_series (start film_disk) =
    (Raise (TypeError "'NoneType' object is not iterable"), start film_disk).
Proof.
  apply (run_without_series stub None None None None None None config_no_series
           media_no_series (start film_disk) (start film_disk)
           ["Inception.2010.mkv"]).
  - reflexivity.
  - vm_compute. reflexivity.
  - vm_compute. reflexivity.
Defined.

Lemma input_files_scan_witness :
  CopyMedia.input_files media_A (start film_disk) =
    (match fs_listdir "/scan" (fs (start film_disk)) with
     | Ok names =>
         Ok (filter (λ f, fs_isfile (posixpath.join "/scan" f)
                            (fs (start film_disk)) = true) names)
     | Raise e => Raise e
     end, start film_disk).
Proof.
  apply (input_files_scan media_A "/scan" (start film_disk)); reflexivity.
Defined.

Definition media_ABC : CopyMedia.t :=
  {| CopyMedia.file := None; CopyMedia.configs := Some config_ABC;
     CopyMedia.ifttt_url := Some "hook"; CopyMedia.scandir := Some "/scan";
     CopyMedia.seriesdir := Some "/series"; CopyMedia.moviedir := Some "/movies";
     CopyMedia.tmdb := None; CopyMedia.series := Some [show_A; show_B] |}.

(** On [disk] one file matches [show_B]; the film beside it is not looked
    up, whether the lookup works or not. *)
Lemma series_match_skips_movies_witness :
  CopyMedia.execute stub media_ABC (start disk)
    = CopyMedia.execute lookup_down media_ABC (start disk) ∧
  ∃ cs,
    calls (CopyMedia.execute stub media_ABC (start disk)).2
      = calls (start disk) ++ cs ∧
    sourced_from (CopyMedia.scandir media_ABC)
      [("ShowB.S02E03.mkv", show_B)].*1 cs.
Proof.
  apply (series_match_skips_movies stub lookup_down media_ABC (start disk)
           (start disk)
           ["Show.S01E01.mkv"; "ShowB.S02E03.mkv"; "Inception.2010.mkv"]
           ("ShowB.S02E03.mkv", show_B) []
           ["Show.S01E01.mkv"; "Inception.2010.mkv"]).
  - vm_compute. reflexivity.
  - vm_compute. reflexivity.
  - reflexivity.
Defined.

Lemma move_series_destinations_witness :
  ∀ d, d ∈ ({["/series/B"]} : gset string) ↔
       ∃ m sub, m ∈ [("ShowB.S02E03.mkv", show_B)] ∧
                subfolder m.2 sub ∧ d = posixpath.join "/series" sub.
Proof.
  eapply (move_series_destinations [("ShowB.S02E03.mkv", show_B)]
            "/series" (Some "/scan") (start disk)).
  vm_compute. reflexivity.
Defined.

Lemma move_movies_calls_witness :
  ∃ k : nat,
    (k ≤ List.length ["Inception.2010.mkv"; "Gone.1999.mkv"])%nat ∧
    calls (CopyMedia.move_movies ["Inception.2010.mkv"; "Gone.1999.mkv"]
             (Some "/movies") (Some "/scan") (start film_disk)).2 =
      calls (start film_disk)
        ++ ((λ f, Move (posixpath.join "/scan" f) (posixpath.join "/movies" f))
              <$> take k ["Inception.2010.mkv"; "Gone.1999.mkv"]) ∧
    (is_ok (CopyMedia.move_movies ["Inception.2010.mkv"; "Gone.1999.mkv"]
              (Some "/movies") (Some "/scan") (start film_disk)).1 →
     k = List.length ["Inception.2010.mkv"; "Gone.1999.mkv"]) ∧
    (is_ok (CopyMedia.move_movies ["Inception.2010.mkv"; "Gone.1999.mkv"]
              (Some "/movies") (Some "/scan") (start film_disk)).1 = false →
     (0 < k)%nat).
Proof.
  apply (move_movies_calls ["Inception.2010.mkv"; "Gone.1999.mkv"]
           "/movies" "/scan" (start film_disk)).
  by destruct (CopyMedia.move_movies _ _ _ _).
Defined.

(** ** A file without a scan directory *)

Section no_scandir.
Context {RE : Regex} {FS : Type} {FSI : FileSystem FS} (env : collaborators).

Lemma move_series_step_no_scandir md f r (w : world FS) res w' :
  CopyMedia.move_series_step md None (f, r) w = (res, w') → is_ok res = false.
Proof.
  unfold CopyMedia.move_series_step. rewrite !prog_bind_unfold. unfold lift at 1.
  destruct (CopyMedia.dest_file_name f r) as [n|e]; cbv beta iota;
    [|by intros [= <- _]].
  rewrite !prog_bind_unfold. unfold lift at 1.
  destruct (CopyMedia.dest_dir md r) as [dest|e]; cbv beta iota;
    [|by intros [= <- _]].
  rewrite !prog_bind_unfold.
  destruct (CopyMedia.ensure_dir dest w) as [[[]|e] w1]; [|by intros [= <- _]].
  rewrite !prog_bind_unfold. unfold lift at 1. simpl. by intros [= <- _].
Qed.

Lemma move_series_no_scandir m ms md (w : world FS) res w' :
  CopyMedia.move_series (m :: ms) md None w = (res, w') → is_ok res = false.
Proof.
  unfold CopyMedia.move_series. cbn [CopyMedia.move_series_loop].
  rewrite prog_bind_unfold. destruct m as [f r].
  destruct (CopyMedia.move_series_step md None (f, r) w) as [rs w1] eqn:Hstep.
  apply move_series_step_no_scandir in Hstep.
  destruct rs as [dest|e]; [done|]. by intros [= <- _].
Qed.

(** A run on a given file without [--scan] never moves anything, even when
    the configuration names a scan directory; and it fails whenever the
    file matches a series (by then the destination directory may have been
    created). *)
Theorem explicit_file_needs_scan base args config path (w : world FS) res w' :
  explicit_file args = Some path →
  path ≠ "" →
  Args.scan args = None →
  main env base args config w = (res, w') →
  (∃ cs, calls w' = calls w ++ cs ∧ ∀ src dst, Move src dst ∉ cs) ∧
  (∀ c m ms ns,
     CopyMedia.init (trigger_url base args) (Args.scan args) (Args.dest args)
       (Some path) (Args.tmdb args) (Args.moviedest args) config = Ok c →
     match_files [(posixpath.split path).2] (CopyMedia.series c) = Ok (m :: ms, ns) →
     is_ok res = false).
Proof.
  intros Hfile Hne Hscan. unfold main, CopyMedia.run. rewrite Hfile.
  rewrite prog_bind_unfold. unfold lift.
  destruct (CopyMedia.init _ _ _ _ _ _ config) as [c|e] eqn:Hinit.
  - destruct (init_explicit_file _ _ _ _ _ _ _ _ Hne Hinit) as [Hf Hs].
    rewrite Hscan in Hs. intros Hex.
    destruct (execute_explicit_file env c path w res w' Hf Hne Hex)
      as (Hin & cs & Hcs & Hsrc).
    split.
    + exists cs. split; [done|]. intros src dst Hc.
      destruct (Hsrc _ _ Hc) as (sd & Hsd & _). congruence.
    + intros c' m ms ns [= <-] Hm.
      rewrite (execute_with_matches env _ _ _ _ _ _ _ Hin Hm), Hs in Hex.
      destruct (CopyMedia.move_series (m :: ms) _ None w) as [rs w1] eqn:Hmv.
      apply move_series_no_scandir in Hmv.
      destruct rs as [D|e]; [done|]. by injection Hex as <- _.
  - intros [= <- <-]. split; [|done]. exists []. rewrite app_nil_r.
    split; [done | intros ? ?; apply not_elem_of_nil].
Qed.

End no_scandir.

(** The download client gives name and path but no [--scan]: the episode
    is not moved although the configuration has a scan directory. *)
Definition deluge_no_scan : Args.t :=
  {| Args.file := None; Args.dest := None; Args.moviedest := None;
     Args.scan := None; Args.ifttt := None; Args.tmdb := None;
     Args.delugeArgs := ["7f3a"; "ShowB.S02E03.mkv"; "/scan"] |}.

Lemma explicit_file_needs_scan_witness :
  ∃ cs,
    calls (main stub "https://maker.ifttt.com" deluge_no_scan config_ABC
             (start disk)).2 = calls (start disk) ++ cs ∧
    ∀ src dst, Move src dst ∉ cs.
Proof.
  apply (explicit_file_needs_scan stub "https://maker.ifttt.com" deluge_no_scan
           config_ABC "/scan/ShowB.S02E03.mkv" (start disk)
           (main stub "https://maker.ifttt.com" deluge_no_scan config_ABC
              (start disk)).1).
  - vm_compute. reflexivity.
  - discriminate.
  - reflexivity.
  - by destruct (main _ _ _ _ _).
Defined.
